(** * Violin coach: grading thresholds, pitch normalisation, tempo and transport

    A shallow embedding of the practice component of
    [src/components/Metronome.tsx] (the [KaraokePractice] function and the
    two helpers in front of it), with the properties of its grading and
    transport logic.

    Conventions of the embedding.
    - A JavaScript [number] that the code may see as [NaN] or infinite is a
      value of [JS.number]: the finite ones carry an exact rational.  Integer
      data (MIDI pitches, counters, indices) are [Z] or [nat]; clock readings
      of [performance.now()] are rationals [Q] (milliseconds).
    - [normalizeCents] is written once, over the arithmetic it uses, and read
      twice: over binary64 floats (what the engine computes) and over exact
      rationals.
    - A React callback reads the [useState] values of the render that created
      it.  Those captured values are the argument [cl : Hooks] of a callback;
      the component it acts on is the argument [w : World].
    - The music-notation display (OpenSheetMusicDisplay) is an external
      library: its cursor is the interface [NotationCursor].
    - The score document is what the loaders read of it: measures, their
      notes, and the texts of the elements of a pitch, with the numbers that
      [parseInt] reads in them.
    - The look-ahead loop of the two metronome schedulers runs under a
      bound on its rounds, over exact rationals.
    - A run of the component is a list of events (a sample, the beat timer,
      a stop, a jump, a reset of the start), each with the callback values
      it carries. *)

From Stdlib Require Import ZArith QArith Qround Qabs Lqa Lia List String Bool.
From Stdlib Require Import DecimalString Sorted.
From Stdlib Require Import Floats.PrimFloat.
Import ListNotations.

Local Open Scope Z_scope.

(** ** JavaScript numbers *)

Module JS.

Inductive number : Type :=
| NaN
| Infinity
| NegInfinity
| Finite (q : Q).

Definition ofZ (z : Z) : number := Finite (inject_Z z).

(** Two numbers denote the same value ([NaN] is identified with itself
    here; [strictEq] below is the language's [===]). *)
Definition same (a b : number) : Prop :=
  match a, b with
  | NaN, NaN => True
  | Infinity, Infinity => True
  | NegInfinity, NegInfinity => True
  | Finite x, Finite y => (x == y)%Q
  | _, _ => False
  end.

Definition Qlt_bool (x y : Q) : bool := negb (Qle_bool y x).

Definition isFinite (x : number) : bool :=
  match x with Finite _ => true | _ => false end.

(** [a === b] *)
Definition strictEq (a b : number) : bool :=
  match a, b with
  | Infinity, Infinity => true
  | NegInfinity, NegInfinity => true
  | Finite x, Finite y => Qeq_bool x y
  | _, _ => false
  end.

(** [a < b] and [a <= b]; every comparison with [NaN] is false. *)
Definition lt (a b : number) : bool :=
  match a, b with
  | NaN, _ | _, NaN => false
  | _, NegInfinity => false
  | Infinity, _ => false
  | NegInfinity, _ => true
  | _, Infinity => true
  | Finite x, Finite y => Qlt_bool x y
  end.

Definition le (a b : number) : bool :=
  match a, b with
  | NaN, _ | _, NaN => false
  | NegInfinity, _ => true
  | _, Infinity => true
  | _, NegInfinity => false
  | Infinity, _ => false
  | Finite x, Finite y => Qle_bool x y
  end.

Definition neg (a : number) : number :=
  match a with
  | NaN => NaN
  | Infinity => NegInfinity
  | NegInfinity => Infinity
  | Finite x => Finite (- x)
  end.

Definition add (a b : number) : number :=
  match a, b with
  | NaN, _ | _, NaN => NaN
  | Infinity, NegInfinity | NegInfinity, Infinity => NaN
  | Infinity, _ | _, Infinity => Infinity
  | NegInfinity, _ | _, NegInfinity => NegInfinity
  | Finite x, Finite y => Finite (x + y)
  end.

Definition sub (a b : number) : number := add a (neg b).

(** The sign of a number that is not [NaN]: [-1], [0] or [1]. *)
Definition sign (a : number) : Z :=
  match a with
  | NaN => 0
  | Infinity => 1
  | NegInfinity => -1
  | Finite x => Z.sgn (Qnum x)
  end.

Definition signed_infinity (s : Z) : number :=
  if s <? 0 then NegInfinity else Infinity.

Definition mul (a b : number) : number :=
  match a, b with
  | NaN, _ | _, NaN => NaN
  | Finite x, Finite y => Finite (x * y)
  | _, _ =>
      if (sign a * sign b =? 0) then NaN
      else signed_infinity (sign a * sign b)
  end.

(** [a / b]; zero has no sign here, a positive number over zero is
    [Infinity]. *)
Definition div (a b : number) : number :=
  match a, b with
  | NaN, _ | _, NaN => NaN
  | Finite x, Finite y =>
      if Qeq_bool y 0 then
        (if Qeq_bool x 0 then NaN else signed_infinity (sign a))
      else Finite (x / y)
  | Finite _, _ => Finite 0
  | _, Finite _ =>
      signed_infinity (if sign b <? 0 then - sign a else sign a)
  | _, _ => NaN
  end.

(** [Math.max], [Math.min], [Math.floor] *)
Definition max (a b : number) : number :=
  match a, b with
  | NaN, _ | _, NaN => NaN
  | _, _ => if lt a b then b else a
  end.

Definition min (a b : number) : number :=
  match a, b with
  | NaN, _ | _, NaN => NaN
  | _, _ => if lt b a then b else a
  end.

Definition floor (a : number) : number :=
  match a with
  | Finite x => Finite (inject_Z (Qfloor x))
  | other => other
  end.

End JS.

(** ** Musical elements and the grading threshold *)

(** [type MusicalElement]; the field [string] is [string_] here. *)
Record MusicalElement : Type := {
  midi : Z;
  accidental : option Z;
  dynamic : option string;
  articulation : option string;
  position : option Z;
  string_ : option string
}.

Definition correctDuringTransportCents : Z := 20.

(** [s === lit] for an optional string attribute. *)
Definition attr_is (s : option string) (lit : string) : bool :=
  match s with
  | Some v => String.eqb v lit
  | None => false
  end.

(** [getGradingThreshold]: the local [baseThreshold] is rebound at each
    assignment of the source. *)
Definition getGradingThreshold (element : option MusicalElement) : Z :=
  match element with
  | None => correctDuringTransportCents
  | Some element =>
      let baseThreshold := correctDuringTransportCents in
      let octave := midi element / 12 - 1 in
      let baseThreshold :=
        if octave >=? 6 then 35
        else if octave >=? 5 then 30
        else if octave <=? 3 then 25
        else baseThreshold in
      let baseThreshold :=
        match accidental element with
        | Some a => if negb (a =? 0) then baseThreshold + 5 else baseThreshold
        | None => baseThreshold
        end in
      let baseThreshold :=
        match position element with
        | Some p =>
            if negb (p =? 0) && (p >? 1)
            then baseThreshold + (p - 1) * 3
            else baseThreshold
        | None => baseThreshold
        end in
      let baseThreshold :=
        if attr_is (string_ element) "E" then baseThreshold + 3
        else baseThreshold in
      let baseThreshold :=
        if attr_is (articulation element) "staccato" then baseThreshold + 2
        else baseThreshold in
      Z.min 50 baseThreshold
  end.

(** The threshold as the specification words it: a base chosen by the
    octave, four independent additive adjustments, a cap. *)
Module ThresholdSpec.

Definition octave (e : MusicalElement) : Z := midi e / 12 - 1.

Definition base (e : MusicalElement) : Z :=
  if Z_ge_dec (octave e) 6 then 35
  else if Z_ge_dec (octave e) 5 then 30
  else if Z_le_dec (octave e) 3 then 25
  else 20.

Definition accidental_adj (e : MusicalElement) : Z :=
  match accidental e with
  | Some 0 | None => 0
  | Some _ => 5
  end.

Definition position_adj (e : MusicalElement) : Z :=
  match position e with
  | Some p => if Z_gt_dec p 1 then 3 * (p - 1) else 0
  | None => 0
  end.

Definition string_adj (e : MusicalElement) : Z :=
  match string_ e with
  | Some s => if string_dec s "E" then 3 else 0
  | None => 0
  end.

Definition articulation_adj (e : MusicalElement) : Z :=
  match articulation e with
  | Some s => if string_dec s "staccato" then 2 else 0
  | None => 0
  end.

Definition threshold (e : MusicalElement) : Z :=
  Z.min 50
    (base e + accidental_adj e + position_adj e
     + string_adj e + articulation_adj e).

End ThresholdSpec.

(** ** Cents normalisation *)

(** [normalizeCents], over any arithmetic that supplies the literals, the two
    comparisons and the two operations of the source.  A [while] loop runs
    under a bound on its iterations; [None] is "bound exhausted". *)
Section NormalizeCents.

Variable num : Type.
Variables (c600 cm600 c1200 : num).
Variables (gt leq : num -> num -> bool).
Variables (plus minus : num -> num -> num).

(** [while (n > 600) n -= 1200] *)
Fixpoint while_above (fuel : nat) (n : num) : option num :=
  if gt n c600 then
    match fuel with
    | O => None
    | S fuel' => while_above fuel' (minus n c1200)
    end
  else Some n.

(** [while (n <= -600) n += 1200] *)
Fixpoint while_below (fuel : nat) (n : num) : option num :=
  if leq n cm600 then
    match fuel with
    | O => None
    | S fuel' => while_below fuel' (plus n c1200)
    end
  else Some n.

Definition normalizeCents_gen (fuel : nat) (cents : num) : option num :=
  match while_above fuel cents with
  | Some n => while_below fuel n
  | None => None
  end.

End NormalizeCents.

(** The engine's reading: IEEE 754 binary64. *)
Definition normalizeCents_float (fuel : nat) (cents : float) : option float :=
  normalizeCents_gen float 600%float (-600)%float 1200%float
    (fun a b => PrimFloat.ltb b a) PrimFloat.leb
    PrimFloat.add PrimFloat.sub fuel cents.

(** The exact reading: rationals. *)
Definition normalizeCents (fuel : nat) (cents : Q) : option Q :=
  normalizeCents_gen Q 600%Q (-600)%Q 1200%Q
    (fun a b => JS.Qlt_bool b a) Qle_bool Qplus Qminus fuel cents.

(** Iterations that suffice for [cents] in exact arithmetic. *)
Definition enough_fuel (cents : Q) : nat :=
  Z.to_nat (Qceiling (Qabs cents / 1200)).

(** ** Tempo *)

(** [sanitizeBpm] *)
Definition sanitizeBpm (raw : JS.number) : JS.number :=
  if negb (JS.isFinite raw) then JS.ofZ 80
  else JS.min (JS.ofZ 240) (JS.max (JS.ofZ 20) (JS.floor raw)).

(** [secondsPerBeat = 60 / sanitizeBpm(currentBpm)] *)
Definition secondsPerBeat (currentBpm : JS.number) : JS.number :=
  JS.div (JS.ofZ 60) (sanitizeBpm currentBpm).

(** ** The notation cursor (external) *)

(** A note under the cursor, as [midiFromGraphicalNote] reads it: its MIDI
    pitch, or nothing when the note carries no pitch. *)
Definition GraphicalNote : Type := option Z.

Definition midiFromGraphicalNote (gn : GraphicalNote) : option Z := gn.

(** What the component uses of the display's cursor: [reset()], [next()],
    [Iterator.endReached], [Iterator.CurrentMeasureIndex],
    [getTimestampReal(Iterator.CurrentTimeStamp)] and [NotesUnderCursor()]. *)
Class NotationCursor (C : Type) : Type := {
  reset : C -> C;
  next : C -> C;
  endReached : C -> bool;
  currentMeasureIndex : C -> option Z;
  currentTimeStamp : C -> option Q;
  notesUnderCursor : C -> list GraphicalNote
}.

(** One vertical container of a source measure: its timestamp and whether
    one of its staff entries holds notes. *)
Record StaffEntryContainer : Type := {
  timestamp : option Q;
  hasNotes : bool
}.

Definition SourceMeasure : Type := list StaffEntryContainer.

(** [osmdRef.current]: the cursor and [Sheet.SourceMeasures]. *)
Record Osmd (C : Type) : Type := {
  cursor : option C;
  sourceMeasures : option (list SourceMeasure)
}.
Arguments cursor {C} _.
Arguments sourceMeasures {C} _.

(** ** Component state *)

Inductive Kind : Type := correct | incorrect | missed.

(** The status line; the template strings keep their arguments. *)
Inductive Status : Type :=
| StatusText (s : string)
| StartingPointSet (measure : Z) (noteMidi : Z)
| CouldNotDetermineNote (measure : Z)
| NoCursorAvailable.

(** A pending [window.setTimeout(step, delay)]: when it was armed and the
    delay asked for, in milliseconds. *)
Record Timer : Type := {
  armedAt : Q;
  delay : JS.number
}.


(** The [useState] values. *)
Record Hooks : Type := {
  isTransportRunning : bool;
  bpm : JS.number;
  currentBpm : JS.number;
  dynamicTempoEnabled : bool;
  awaitingFirstCorrect : bool;
  firstNoteMidi : option Z;
  targetInfo : option Z;
  measureNumber : Z;
  currentMeasure : Z;
  status : Status;
  noteMarks : list Kind
}.

(** The [useRef] cells (and the cell [listen._stableForMsRef]). *)
Record Refs : Type := {
  schedulerIdRef : option Timer;
  isTransportRunningRef : bool;
  awaitingFirstCorrectRef : bool;
  windowHadAccurateRef : bool;
  windowHadAnyPitchRef : bool;
  lastTargetMidiRef : option Z;
  consecutiveErrorsRef : Z;
  lastErrorTimeRef : Q;
  currentStepIndexRef : nat;
  scoreMidiSequenceRef : list MusicalElement;
  noteMarksRef : list Kind;
  stableForMsRef : Q
}.

(** The component: hooks, refs, the display, and whether the wrapper and
    the cursor's DOM element exist. *)
Record World (C : Type) : Type := {
  hooks : Hooks;
  refs : Refs;
  osmdRef : option (Osmd C);
  cursorElement : bool
}.
Arguments hooks {C} _.
Arguments refs {C} _.
Arguments osmdRef {C} _.
Arguments cursorElement {C} _.

(** Field updates: the setter of a hook, the assignment to a ref. *)

Definition set_isTransportRunning (v : bool) (h : Hooks) : Hooks :=
  {| isTransportRunning := v; bpm := bpm h; currentBpm := currentBpm h;
     dynamicTempoEnabled := dynamicTempoEnabled h;
     awaitingFirstCorrect := awaitingFirstCorrect h;
     firstNoteMidi := firstNoteMidi h; targetInfo := targetInfo h;
     measureNumber := measureNumber h; currentMeasure := currentMeasure h;
     status := status h; noteMarks := noteMarks h |}.

Definition set_currentBpm (v : JS.number) (h : Hooks) : Hooks :=
  {| isTransportRunning := isTransportRunning h; bpm := bpm h;
     currentBpm := v; dynamicTempoEnabled := dynamicTempoEnabled h;
     awaitingFirstCorrect := awaitingFirstCorrect h;
     firstNoteMidi := firstNoteMidi h; targetInfo := targetInfo h;
     measureNumber := measureNumber h; currentMeasure := currentMeasure h;
     status := status h; noteMarks := noteMarks h |}.

Definition set_awaitingFirstCorrect (v : bool) (h : Hooks) : Hooks :=
  {| isTransportRunning := isTransportRunning h; bpm := bpm h;
     currentBpm := currentBpm h; dynamicTempoEnabled := dynamicTempoEnabled h;
     awaitingFirstCorrect := v; firstNoteMidi := firstNoteMidi h;
     targetInfo := targetInfo h; measureNumber := measureNumber h;
     currentMeasure := currentMeasure h; status := status h;
     noteMarks := noteMarks h |}.

Definition set_firstNoteMidi (v : option Z) (h : Hooks) : Hooks :=
  {| isTransportRunning := isTransportRunning h; bpm := bpm h;
     currentBpm := currentBpm h; dynamicTempoEnabled := dynamicTempoEnabled h;
     awaitingFirstCorrect := awaitingFirstCorrect h; firstNoteMidi := v;
     targetInfo := targetInfo h; measureNumber := measureNumber h;
     currentMeasure := currentMeasure h; status := status h;
     noteMarks := noteMarks h |}.

Definition set_targetInfo (v : option Z) (h : Hooks) : Hooks :=
  {| isTransportRunning := isTransportRunning h; bpm := bpm h;
     currentBpm := currentBpm h; dynamicTempoEnabled := dynamicTempoEnabled h;
     awaitingFirstCorrect := awaitingFirstCorrect h;
     firstNoteMidi := firstNoteMidi h; targetInfo := v;
     measureNumber := measureNumber h; currentMeasure := currentMeasure h;
     status := status h; noteMarks := noteMarks h |}.

Definition set_measureNumber (v : Z) (h : Hooks) : Hooks :=
  {| isTransportRunning := isTransportRunning h; bpm := bpm h;
     currentBpm := currentBpm h; dynamicTempoEnabled := dynamicTempoEnabled h;
     awaitingFirstCorrect := awaitingFirstCorrect h;
     firstNoteMidi := firstNoteMidi h; targetInfo := targetInfo h;
     measureNumber := v; currentMeasure := currentMeasure h;
     status := status h; noteMarks := noteMarks h |}.

Definition set_currentMeasure (v : Z) (h : Hooks) : Hooks :=
  {| isTransportRunning := isTransportRunning h; bpm := bpm h;
     currentBpm := currentBpm h; dynamicTempoEnabled := dynamicTempoEnabled h;
     awaitingFirstCorrect := awaitingFirstCorrect h;
     firstNoteMidi := firstNoteMidi h; targetInfo := targetInfo h;
     measureNumber := measureNumber h; currentMeasure := v;
     status := status h; noteMarks := noteMarks h |}.

Definition set_status (v : Status) (h : Hooks) : Hooks :=
  {| isTransportRunning := isTransportRunning h; bpm := bpm h;
     currentBpm := currentBpm h; dynamicTempoEnabled := dynamicTempoEnabled h;
     awaitingFirstCorrect := awaitingFirstCorrect h;
     firstNoteMidi := firstNoteMidi h; targetInfo := targetInfo h;
     measureNumber := measureNumber h; currentMeasure := currentMeasure h;
     status := v; noteMarks := noteMarks h |}.

Definition set_noteMarks (v : list Kind) (h : Hooks) : Hooks :=
  {| isTransportRunning := isTransportRunning h; bpm := bpm h;
     currentBpm := currentBpm h; dynamicTempoEnabled := dynamicTempoEnabled h;
     awaitingFirstCorrect := awaitingFirstCorrect h;
     firstNoteMidi := firstNoteMidi h; targetInfo := targetInfo h;
     measureNumber := measureNumber h; currentMeasure := currentMeasure h;
     status := status h; noteMarks := v |}.

Definition set_schedulerIdRef (v : option Timer) (r : Refs) : Refs :=
  {| schedulerIdRef := v; isTransportRunningRef := isTransportRunningRef r;
     awaitingFirstCorrectRef := awaitingFirstCorrectRef r;
     windowHadAccurateRef := windowHadAccurateRef r;
     windowHadAnyPitchRef := windowHadAnyPitchRef r;
     lastTargetMidiRef := lastTargetMidiRef r;
     consecutiveErrorsRef := consecutiveErrorsRef r;
     lastErrorTimeRef := lastErrorTimeRef r;
     currentStepIndexRef := currentStepIndexRef r;
     scoreMidiSequenceRef := scoreMidiSequenceRef r;
     noteMarksRef := noteMarksRef r; stableForMsRef := stableForMsRef r |}.

Definition set_isTransportRunningRef (v : bool) (r : Refs) : Refs :=
  {| schedulerIdRef := schedulerIdRef r; isTransportRunningRef := v;
     awaitingFirstCorrectRef := awaitingFirstCorrectRef r;
     windowHadAccurateRef := windowHadAccurateRef r;
     windowHadAnyPitchRef := windowHadAnyPitchRef r;
     lastTargetMidiRef := lastTargetMidiRef r;
     consecutiveErrorsRef := consecutiveErrorsRef r;
     lastErrorTimeRef := lastErrorTimeRef r;
     currentStepIndexRef := currentStepIndexRef r;
     scoreMidiSequenceRef := scoreMidiSequenceRef r;
     noteMarksRef := noteMarksRef r; stableForMsRef := stableForMsRef r |}.

Definition set_awaitingFirstCorrectRef (v : bool) (r : Refs) : Refs :=
  {| schedulerIdRef := schedulerIdRef r;
     isTransportRunningRef := isTransportRunningRef r;
     awaitingFirstCorrectRef := v;
     windowHadAccurateRef := windowHadAccurateRef r;
     windowHadAnyPitchRef := windowHadAnyPitchRef r;
     lastTargetMidiRef := lastTargetMidiRef r;
     consecutiveErrorsRef := consecutiveErrorsRef r;
     lastErrorTimeRef := lastErrorTimeRef r;
     currentStepIndexRef := currentStepIndexRef r;
     scoreMidiSequenceRef := scoreMidiSequenceRef r;
     noteMarksRef := noteMarksRef r; stableForMsRef := stableForMsRef r |}.

Definition set_windowHadAccurateRef (v : bool) (r : Refs) : Refs :=
  {| schedulerIdRef := schedulerIdRef r;
     isTransportRunningRef := isTransportRunningRef r;
     awaitingFirstCorrectRef := awaitingFirstCorrectRef r;
     windowHadAccurateRef := v;
     windowHadAnyPitchRef := windowHadAnyPitchRef r;
     lastTargetMidiRef := lastTargetMidiRef r;
     consecutiveErrorsRef := consecutiveErrorsRef r;
     lastErrorTimeRef := lastErrorTimeRef r;
     currentStepIndexRef := currentStepIndexRef r;
     scoreMidiSequenceRef := scoreMidiSequenceRef r;
     noteMarksRef := noteMarksRef r; stableForMsRef := stableForMsRef r |}.

Definition set_windowHadAnyPitchRef (v : bool) (r : Refs) : Refs :=
  {| schedulerIdRef := schedulerIdRef r;
     isTransportRunningRef := isTransportRunningRef r;
     awaitingFirstCorrectRef := awaitingFirstCorrectRef r;
     windowHadAccurateRef := windowHadAccurateRef r;
     windowHadAnyPitchRef := v; lastTargetMidiRef := lastTargetMidiRef r;
     consecutiveErrorsRef := consecutiveErrorsRef r;
     lastErrorTimeRef := lastErrorTimeRef r;
     currentStepIndexRef := currentStepIndexRef r;
     scoreMidiSequenceRef := scoreMidiSequenceRef r;
     noteMarksRef := noteMarksRef r; stableForMsRef := stableForMsRef r |}.

Definition set_lastTargetMidiRef (v : option Z) (r : Refs) : Refs :=
  {| schedulerIdRef := schedulerIdRef r;
     isTransportRunningRef := isTransportRunningRef r;
     awaitingFirstCorrectRef := awaitingFirstCorrectRef r;
     windowHadAccurateRef := windowHadAccurateRef r;
     windowHadAnyPitchRef := windowHadAnyPitchRef r; lastTargetMidiRef := v;
     consecutiveErrorsRef := consecutiveErrorsRef r;
     lastErrorTimeRef := lastErrorTimeRef r;
     currentStepIndexRef := currentStepIndexRef r;
     scoreMidiSequenceRef := scoreMidiSequenceRef r;
     noteMarksRef := noteMarksRef r; stableForMsRef := stableForMsRef r |}.

Definition set_consecutiveErrorsRef (v : Z) (r : Refs) : Refs :=
  {| schedulerIdRef := schedulerIdRef r;
     isTransportRunningRef := isTransportRunningRef r;
     awaitingFirstCorrectRef := awaitingFirstCorrectRef r;
     windowHadAccurateRef := windowHadAccurateRef r;
     windowHadAnyPitchRef := windowHadAnyPitchRef r;
     lastTargetMidiRef := lastTargetMidiRef r; consecutiveErrorsRef := v;
     lastErrorTimeRef := lastErrorTimeRef r;
     currentStepIndexRef := currentStepIndexRef r;
     scoreMidiSequenceRef := scoreMidiSequenceRef r;
     noteMarksRef := noteMarksRef r; stableForMsRef := stableForMsRef r |}.

Definition set_lastErrorTimeRef (v : Q) (r : Refs) : Refs :=
  {| schedulerIdRef := schedulerIdRef r;
     isTransportRunningRef := isTransportRunningRef r;
     awaitingFirstCorrectRef := awaitingFirstCorrectRef r;
     windowHadAccurateRef := windowHadAccurateRef r;
     windowHadAnyPitchRef := windowHadAnyPitchRef r;
     lastTargetMidiRef := lastTargetMidiRef r;
     consecutiveErrorsRef := consecutiveErrorsRef r; lastErrorTimeRef := v;
     currentStepIndexRef := currentStepIndexRef r;
     scoreMidiSequenceRef := scoreMidiSequenceRef r;
     noteMarksRef := noteMarksRef r; stableForMsRef := stableForMsRef r |}.

Definition set_currentStepIndexRef (v : nat) (r : Refs) : Refs :=
  {| schedulerIdRef := schedulerIdRef r;
     isTransportRunningRef := isTransportRunningRef r;
     awaitingFirstCorrectRef := awaitingFirstCorrectRef r;
     windowHadAccurateRef := windowHadAccurateRef r;
     windowHadAnyPitchRef := windowHadAnyPitchRef r;
     lastTargetMidiRef := lastTargetMidiRef r;
     consecutiveErrorsRef := consecutiveErrorsRef r;
     lastErrorTimeRef := lastErrorTimeRef r; currentStepIndexRef := v;
     scoreMidiSequenceRef := scoreMidiSequenceRef r;
     noteMarksRef := noteMarksRef r; stableForMsRef := stableForMsRef r |}.

Definition set_noteMarksRef (v : list Kind) (r : Refs) : Refs :=
  {| schedulerIdRef := schedulerIdRef r;
     isTransportRunningRef := isTransportRunningRef r;
     awaitingFirstCorrectRef := awaitingFirstCorrectRef r;
     windowHadAccurateRef := windowHadAccurateRef r;
     windowHadAnyPitchRef := windowHadAnyPitchRef r;
     lastTargetMidiRef := lastTargetMidiRef r;
     consecutiveErrorsRef := consecutiveErrorsRef r;
     lastErrorTimeRef := lastErrorTimeRef r;
     currentStepIndexRef := currentStepIndexRef r;
     scoreMidiSequenceRef := scoreMidiSequenceRef r; noteMarksRef := v;
     stableForMsRef := stableForMsRef r |}.

Definition set_stableForMsRef (v : Q) (r : Refs) : Refs :=
  {| schedulerIdRef := schedulerIdRef r;
     isTransportRunningRef := isTransportRunningRef r;
     awaitingFirstCorrectRef := awaitingFirstCorrectRef r;
     windowHadAccurateRef := windowHadAccurateRef r;
     windowHadAnyPitchRef := windowHadAnyPitchRef r;
     lastTargetMidiRef := lastTargetMidiRef r;
     consecutiveErrorsRef := consecutiveErrorsRef r;
     lastErrorTimeRef := lastErrorTimeRef r;
     currentStepIndexRef := currentStepIndexRef r;
     scoreMidiSequenceRef := scoreMidiSequenceRef r;
     noteMarksRef := noteMarksRef r; stableForMsRef := v |}.

(** ** Note selection *)

Definition VIOLIN_MIN_MIDI : Z := 55.
Definition VIOLIN_MAX_MIDI : Z := 100.

(** The notes kept as candidates: those with a pitch in the violin range. *)
Definition candidates (notes : list GraphicalNote) : list Z :=
  flat_map
    (fun n =>
       match midiFromGraphicalNote n with
       | Some m =>
           if (m >=? VIOLIN_MIN_MIDI) && (m <=? VIOLIN_MAX_MIDI)
           then [m] else []
       | None => []
       end)
    notes.

(** [Array.prototype.sort] with a comparator: a stable sort. *)
Fixpoint insert_by (cmp : Z -> Z -> Z) (x : Z) (l : list Z) : list Z :=
  match l with
  | [] => [x]
  | y :: rest => if cmp x y <=? 0 then x :: l else y :: insert_by cmp x rest
  end.

Definition sort_by (cmp : Z -> Z -> Z) (l : list Z) : list Z :=
  fold_right (insert_by cmp) [] l.

(** [selectPrimaryNoteFromArray]: the highest pitch among the candidates. *)
Definition selectPrimaryNoteFromArray (notes : list GraphicalNote)
  : option GraphicalNote :=
  match sort_by (fun a b => b - a) (candidates notes) with
  | [] => None
  | m :: _ => Some (Some m)
  end.

(** [selectPreferredNote]: the candidate closest to [preferredMidi], the
    highest one when there is no preference. *)
Definition selectPreferredNote (notes : list GraphicalNote)
    (preferredMidi : option Z) : option GraphicalNote :=
  match candidates notes with
  | [] => None
  | cs =>
      match preferredMidi with
      | Some p =>
          match sort_by (fun a b => Z.abs (a - p) - Z.abs (b - p)) cs with
          | [] => None
          | m :: _ => Some (Some m)
          end
      | None =>
          match sort_by (fun a b => b - a) cs with
          | [] => None
          | m :: _ => Some (Some m)
          end
      end
  end.

(** [getFirstNoteTimestampForMeasure]: the first container of the measure
    that has notes and a numeric timestamp. *)
Fixpoint first_note_timestamp (vsecs : list StaffEntryContainer) : option Q :=
  match vsecs with
  | [] => None
  | vc :: rest =>
      match hasNotes vc, timestamp vc with
      | true, Some ts => Some ts
      | _, _ => first_note_timestamp rest
      end
  end.

Definition getFirstNoteTimestampForMeasure {C : Type} (osmd : Osmd C)
    (measureNumber : Z) : option Q :=
  match sourceMeasures osmd with
  | None => None
  | Some measures =>
      if measureNumber <? 1 then None
      else
        match nth_error measures (Z.to_nat (measureNumber - 1)) with
        | None => None
        | Some measure => first_note_timestamp measure
        end
  end.

(** ** Samples of the pitch detector *)

(** One reading of the sampling loop: the detector's frequency and clarity,
    the value [computeCentsOffset] gives for that frequency against the
    effective target (a base-2 logarithm, taken as given), and the clock. *)
Record Sample : Type := {
  freq : JS.number;
  clarity : JS.number;
  centsOffset : Q;
  stableTime : Q
}.

(** [clarityThreshold = 0.6]: the double the literal denotes, which lies
    below 6/10. *)
Definition clarityThreshold : Q := 5404319552844595 # 9007199254740992.

Definition hasPitch (s : Sample) : bool :=
  let isInViolinRange :=
    JS.le (JS.ofZ 180) (freq s) && JS.le (freq s) (JS.ofZ 2800) in
  JS.isFinite (freq s)
  && JS.le (JS.Finite clarityThreshold) (clarity s)
  && isInViolinRange.

(** [Math.abs(rawCents) <= threshold] *)
Definition withinThreshold (rawCents : option Q) (threshold : Z) : bool :=
  match rawCents with
  | Some c => Qle_bool (Qabs c) (inject_Z threshold)
  | None => false
  end.

(** The mark of a finished beat. *)
Definition kindOf (wasAccurate hadAnyPitch : bool) : Kind :=
  if wasAccurate then correct
  else if hadAnyPitch then incorrect
  else missed.

(** ** The callbacks of the component *)

Section Component.

Context {C : Type} {NC : NotationCursor C}.

Definition on_hooks (f : Hooks -> Hooks) (w : World C) : World C :=
  {| hooks := f (hooks w); refs := refs w; osmdRef := osmdRef w;
     cursorElement := cursorElement w |}.

Definition on_refs (f : Refs -> Refs) (w : World C) : World C :=
  {| hooks := hooks w; refs := f (refs w); osmdRef := osmdRef w;
     cursorElement := cursorElement w |}.

(** [osmdRef.current?.cursor] *)
Definition the_cursor (w : World C) : option C :=
  match osmdRef w with
  | Some osmd => cursor osmd
  | None => None
  end.

(** The cursor is one object, moved in place. *)
Definition set_cursor (c : C) (w : World C) : World C :=
  {| hooks := hooks w; refs := refs w;
     osmdRef :=
       match osmdRef w with
       | Some osmd =>
           Some {| cursor := Some c; sourceMeasures := sourceMeasures osmd |}
       | None => None
       end;
     cursorElement := cursorElement w |}.

Definition getNotesUnderCursor (cursorAny : option C) : list GraphicalNote :=
  match cursorAny with
  | Some c => notesUnderCursor c
  | None => []
  end.

Definition has_notes (c : C) : bool :=
  match getNotesUnderCursor (Some c) with
  | [] => false
  | _ :: _ => true
  end.

(** [ensureCursorOnNote]: at most 16 rounds; the cursor it leaves and the
    value it returns. *)
Fixpoint ensureCursorOnNote_from (guard : nat) (c : C) : C * bool :=
  match guard with
  | O => (c, false)
  | S guard' =>
      if has_notes c then (c, true)
      else if endReached c then (c, false)
      else ensureCursorOnNote_from guard' (next c)
  end.

Definition ensureCursorOnNote (c : C) : C * bool :=
  ensureCursorOnNote_from 16 c.

(** [secondsPerBeat] of the render a callback was created in. *)
Definition secondsPerBeatOf (cl : Hooks) : JS.number :=
  secondsPerBeat (currentBpm cl).

(** [window.setTimeout(step, secondsPerBeat * 1000)] called at [now]. *)
Definition armStep (cl : Hooks) (now : Q) : Timer :=
  {| armedAt := now;
     delay := JS.mul (secondsPerBeatOf cl) (JS.ofZ 1000) |}.

(** [updateDynamicTempo]; [now] is its reading of [performance.now()]. *)
Definition updateDynamicTempo (cl : Hooks) (wasAccurate : bool) (now : Q)
    (w : World C) : World C :=
  if negb (dynamicTempoEnabled cl) then w
  else if negb wasAccurate then
    let w :=
      on_refs
        (fun r => set_consecutiveErrorsRef (consecutiveErrorsRef r + 1) r) w in
    let w := on_refs (set_lastErrorTimeRef now) w in
    if consecutiveErrorsRef (refs w) >=? 2 then
      let newBpm := JS.max (JS.ofZ 40) (JS.sub (currentBpm cl) (JS.ofZ 8)) in
      on_hooks (set_currentBpm newBpm) w
    else w
  else
    let w := on_refs (set_consecutiveErrorsRef 0) w in
    if JS.Qlt_bool 5000 (now - lastErrorTimeRef (refs w)) then
      let newBpm := JS.min (bpm cl) (JS.add (currentBpm cl) (JS.ofZ 2)) in
      if negb (JS.strictEq newBpm (currentBpm cl))
      then on_hooks (set_currentBpm newBpm) w
      else w
    else w.

(** [stopTransport] *)
Definition stopTransport (w : World C) : World C :=
  let w := on_refs (set_schedulerIdRef None) w in
  let w := on_hooks (set_isTransportRunning false) w in
  on_refs (set_isTransportRunningRef false) w.

(** The element the sequence cursor points at:
    [seq[currentStepIndexRef.current ?? 0] ?? null]. *)
Definition midiSeqTarget (w : World C) : option MusicalElement :=
  nth_error (scoreMidiSequenceRef (refs w)) (currentStepIndexRef (refs w)).

(** The [try] block of [step]: when the wrapper and the cursor's element
    exist, the mark of the beat that ends (its place on the page left
    out) and the tempo update. *)
Definition markBeat (cl : Hooks) (now : Q) (w : World C) : World C :=
  if cursorElement w then
    let wasAccurate := windowHadAccurateRef (refs w) in
    let kind := kindOf wasAccurate (windowHadAnyPitchRef (refs w)) in
    let next_marks := noteMarksRef (refs w) ++ [kind] in
    let w := on_refs (set_noteMarksRef next_marks) w in
    let w := on_hooks (set_noteMarks next_marks) w in
    updateDynamicTempo cl wasAccurate now w
  else w.

(** The callback [step] that [startTransport] arms, run at [now]. *)
Definition step (cl : Hooks) (now : Q) (w : World C) : World C :=
  match the_cursor w with
  | None => w
  | Some c =>
      let seq := scoreMidiSequenceRef (refs w) in
      if endReached c then stopTransport w
      else
        let w := markBeat cl now w in
        let w := on_refs (set_windowHadAccurateRef false) w in
        let w := on_refs (set_windowHadAnyPitchRef false) w in
        if (0 <? List.length seq)%nat then
          let nextIdx := (currentStepIndexRef (refs w) + 1)%nat in
          if (nextIdx <? List.length seq)%nat then
            let w := on_refs (set_currentStepIndexRef nextIdx) w in
            let w :=
              match nth_error seq nextIdx with
              | Some element =>
                  let w :=
                    on_refs (set_lastTargetMidiRef (Some (midi element))) w in
                  on_hooks (set_targetInfo (Some (midi element))) w
              | None => w
              end in
            let w := set_cursor (fst (ensureCursorOnNote (next c))) w in
            on_refs (set_schedulerIdRef (Some (armStep cl now))) w
          else stopTransport w
        else on_refs (set_schedulerIdRef (Some (armStep cl now))) w
  end.

(** [startTransport], called at [now]. *)
Definition startTransport (cl : Hooks) (now : Q) (w : World C) : World C :=
  if isTransportRunning cl then w
  else
    match the_cursor w with
    | None => w
    | Some c =>
        let w := on_hooks (set_isTransportRunning true) w in
        let w := on_refs (set_isTransportRunningRef true) w in
        let w :=
          if dynamicTempoEnabled cl then
            let w := on_hooks (set_currentBpm (bpm cl)) w in
            let w := on_refs (set_consecutiveErrorsRef 0) w in
            on_refs (set_lastErrorTimeRef 0%Q) w
          else w in
        let w := set_cursor (fst (ensureCursorOnNote c)) w in
        on_refs (set_schedulerIdRef (Some (armStep cl now))) w
    end.

(** The target the sampling loop grades against. *)
Definition effectiveMidi (cl : Hooks) (w : World C) : option Z :=
  if isTransportRunningRef (refs w) then
    match midiSeqTarget w with
    | Some e => Some (midi e)
    | None => lastTargetMidiRef (refs w)
    end
  else
    let fromCursor :=
      match the_cursor w with
      | Some idleCursor =>
          let preferred :=
            match targetInfo cl with
            | Some m => Some m
            | None => lastTargetMidiRef (refs w)
            end in
          match selectPreferredNote (getNotesUnderCursor (Some idleCursor))
                  preferred with
          | Some idleNote => midiFromGraphicalNote idleNote
          | None => None
          end
      | None => None
      end in
    match fromCursor with
    | Some m => Some m
    | None => lastTargetMidiRef (refs w)
    end.

(** [rawCents]: the offset of the sample when it has a pitch and there is
    a target to compare with (the target frequency of a MIDI pitch is a
    positive number, hence truthy). *)
Definition rawCentsOf (s : Sample) (effective : option Z) : option Q :=
  match effective with
  | Some _ => if hasPitch s then Some (centsOffset s) else None
  | None => None
  end.

(** [isAccurate] of the start gate. *)
Definition isAccurate (cl : Hooks) (s : Sample) (w : World C) : bool :=
  let effective := effectiveMidi cl w in
  let rawCents := rawCentsOf s effective in
  let threshold := getGradingThreshold (midiSeqTarget w) in
  awaitingFirstCorrectRef (refs w)
  && match rawCents with Some _ => true | None => false end
  && withinThreshold rawCents threshold
  && match effective with Some _ => true | None => false end.

(** The body of [tick] that grades and gates (the display of the measured
    pitch and the colour of the cursor are left out).  [isAccurate] reads
    the values computed at the top of the body and the waiting flag, none
    of which the grading in between writes. *)
Definition tick (cl : Hooks) (s : Sample) (w : World C) : World C :=
  let effective := effectiveMidi cl w in
  let rawCents := rawCentsOf s effective in
  let accurateNow := isAccurate cl s w in
  let w :=
    if isTransportRunningRef (refs w) then
      if hasPitch s then
        let w := on_refs (set_windowHadAnyPitchRef true) w in
        let threshold := getGradingThreshold (midiSeqTarget w) in
        if withinThreshold rawCents threshold
        then on_refs (set_windowHadAccurateRef true) w
        else w
      else w
    else w in
  let w :=
    match effective with
    | Some eff =>
        if negb (isTransportRunningRef (refs w))
           && (eff >=? VIOLIN_MIN_MIDI) && (eff <=? VIOLIN_MAX_MIDI)
        then on_hooks (set_targetInfo (Some eff)) w
        else w
    | None => w
    end in
  if accurateNow then
    let w :=
      if Qeq_bool (stableForMsRef (refs w)) 0
      then on_refs (set_stableForMsRef (stableTime s)) w
      else w in
    if JS.Qlt_bool 250 (stableTime s - stableForMsRef (refs w)) then
      let w := on_hooks (set_awaitingFirstCorrect false) w in
      let w := on_refs (set_awaitingFirstCorrectRef false) w in
      let w := on_hooks (set_firstNoteMidi None) w in
      let w :=
        match the_cursor w with
        | Some c => set_cursor (fst (ensureCursorOnNote c)) w
        | None => w
        end in
      startTransport cl (stableTime s) w
    else w
  else on_refs (set_stableForMsRef 0%Q) w.

(** [(cursor.Iterator?.CurrentMeasureIndex || 0)] *)
Definition measureIndexOr0 (c : C) : Z :=
  match currentMeasureIndex c with
  | Some i => i
  | None => 0
  end.

(** The first loop of [jumpToMeasure]: up to 4096 rounds. *)
Fixpoint scanToMeasure (guard : nat) (measureNumber : Z)
    (firstTs : option Q) (c : C) : C :=
  match guard with
  | O => c
  | S guard' =>
      let curMeasure := measureIndexOr0 c + 1 in
      let curTs := currentTimeStamp c in
      if curMeasure >? measureNumber then c
      else if (curMeasure =? measureNumber)
              && match firstTs with
                 | None => true
                 | Some f =>
                     match curTs with
                     | Some t => Qle_bool f t
                     | None => false
                     end
                 end
      then c
      else scanToMeasure guard' measureNumber firstTs (next c)
  end.

(** The second loop: up to 256 rounds, within the measure. *)
Fixpoint scanToNote (tries : nat) (measureNumber : Z) (c : C) : C :=
  match tries with
  | O => c
  | S tries' =>
      let curMeasure := measureIndexOr0 c + 1 in
      if negb (curMeasure =? measureNumber) then c
      else if has_notes c then c
      else scanToNote tries' measureNumber (next c)
  end.

(** [jumpToMeasure] *)
Definition jumpToMeasure (cl : Hooks) (w : World C) : World C :=
  match osmdRef w with
  | None => w
  | Some osmd =>
      match cursor osmd with
      | Some c =>
          let firstTs :=
            getFirstNoteTimestampForMeasure osmd (measureNumber cl) in
          let c := reset c in
          let c := scanToMeasure 4096 (measureNumber cl) firstTs c in
          let c := scanToNote 256 (measureNumber cl) c in
          let w := set_cursor c w in
          let notes := getNotesUnderCursor (Some c) in
          let currentNote := selectPrimaryNoteFromArray notes in
          let currentMidi :=
            match currentNote with
            | Some n => midiFromGraphicalNote n
            | None => None
            end in
          let finalMeasure := measureIndexOr0 c in
          let w := on_hooks (set_currentMeasure (finalMeasure + 1)) w in
          let w := on_hooks (set_measureNumber (finalMeasure + 1)) w in
          match currentMidi with
          | Some m =>
              let w := on_hooks (set_targetInfo (Some m)) w in
              on_hooks (set_status (StartingPointSet (finalMeasure + 1) m)) w
          | None =>
              on_hooks
                (set_status (CouldNotDetermineNote (finalMeasure + 1))) w
          end
      | None => on_hooks (set_status NoCursorAvailable) w
      end
  end.

End Component.

(** ** A cursor over a list of entries

    A small implementation of [NotationCursor], for the concrete runs
    below: the score as the list of positions the cursor visits. *)

Record Entry : Type := {
  entryMeasure : Z;
  entryTime : Q;
  entryNotes : list GraphicalNote
}.

Record ListCursor : Type := {
  entries : list Entry;
  place : nat
}.

Definition entryAt (c : ListCursor) : option Entry :=
  nth_error (entries c) (place c).

#[export] Instance ListCursor_NotationCursor : NotationCursor ListCursor := {
  reset c := {| entries := entries c; place := 0 |};
  next c := {| entries := entries c; place := S (place c) |};
  endReached c := (List.length (entries c) <=? place c)%nat;
  currentMeasureIndex c := option_map entryMeasure (entryAt c);
  currentTimeStamp c := option_map entryTime (entryAt c);
  notesUnderCursor c :=
    match entryAt c with
    | Some e => entryNotes e
    | None => []
    end
}.

(** ** A small score, for the concrete runs

    Three notes A4, B4, C#5 (MIDI 69, 71, 73): two in the first measure, one
    in the second. *)

Definition note (m : Z) : MusicalElement :=
  {| midi := m; accidental := None; dynamic := None; articulation := None;
     position := None; string_ := None |}.

Definition threeNotes : list MusicalElement := [note 69; note 71; note 73].

Definition threeNotesCursor : ListCursor :=
  {| entries :=
       [ {| entryMeasure := 0; entryTime := 0; entryNotes := [Some 69] |};
         {| entryMeasure := 0; entryTime := 1 # 2; entryNotes := [Some 71] |};
         {| entryMeasure := 1; entryTime := 1; entryNotes := [Some 73] |} ];
     place := 0 |}.

Definition threeNotesSheet : list SourceMeasure :=
  [ [ {| timestamp := Some 0%Q; hasNotes := true |};
      {| timestamp := Some (1 # 2); hasNotes := true |} ];
    [ {| timestamp := Some 1%Q; hasNotes := true |} ] ].

(** The component once the score is loaded, at tempo 60, with the sequence
    [seq]: nothing running, the start gate waiting. *)
Definition loadedWith (seq : list MusicalElement) : World ListCursor :=
  {| hooks :=
       {| isTransportRunning := false;
          bpm := JS.ofZ 60;
          currentBpm := JS.ofZ 60;
          dynamicTempoEnabled := false;
          awaitingFirstCorrect := true;
          firstNoteMidi := Some 69;
          targetInfo := Some 69;
          measureNumber := 1;
          currentMeasure := 1;
          status := StatusText "Ready";
          noteMarks := [] |};
     refs :=
       {| schedulerIdRef := None;
          isTransportRunningRef := false;
          awaitingFirstCorrectRef := true;
          windowHadAccurateRef := false;
          windowHadAnyPitchRef := false;
          lastTargetMidiRef := Some 69;
          consecutiveErrorsRef := 0;
          lastErrorTimeRef := 0;
          currentStepIndexRef := 0;
          scoreMidiSequenceRef := seq;
          noteMarksRef := [];
          stableForMsRef := 0 |};
     osmdRef :=
       Some {| cursor := Some threeNotesCursor;
               sourceMeasures := Some threeNotesSheet |};
     cursorElement := true |}.

Definition loaded : World ListCursor := loadedWith threeNotes.

(** A sample exactly on A4: 440 Hz against a target of 440 Hz is an offset
    of [1200 * log2 1 = 0] cents. *)
Definition onPitchAt (time : Q) : Sample :=
  {| freq := JS.ofZ 440; clarity := JS.Finite 0.9; centsOffset := 0;
     stableTime := time |}.


(** ** Notions used in the statements *)

Section Notions.

Context {C : Type} {NC : NotationCursor C}.

(** The first instant of the run of accurate samples, once the sample [s]
    has been counted in: the stored one, or the sample's own time when the
    stored cell is empty (0). *)
Definition streakStart (s : Sample) (w : World C) : Q :=
  if Qeq_bool (stableForMsRef (refs w)) 0 then stableTime s
  else stableForMsRef (refs w).

(** Where the two loops of [jumpToMeasure] leave the cursor [c]. *)
Definition jumpedCursor (measureNumber : Z) (osmd : Osmd C) (c : C) : C :=
  scanToNote 256 measureNumber
    (scanToMeasure 4096 measureNumber
       (getFirstNoteTimestampForMeasure osmd measureNumber) (reset c)).

End Notions.

(** ** Concrete runs *)

(** The transport started at time 0 on the loaded score. *)
Definition threeNotesRunning : World ListCursor :=
  startTransport (hooks loaded) 0 loaded.

(** ... and stepped at 1000, 2000 and 3000 ms with nothing played: two
    advances, then the end of the sequence stops it. *)
Definition playedThrough : World ListCursor :=
  let cl := hooks loaded in
  step cl 3000 (step cl 2000 (step cl 1000 threeNotesRunning)).

(** Then "jump to measure 1". *)
Definition jumpedBack : World ListCursor :=
  jumpToMeasure (hooks playedThrough) playedThrough.

(** The sampling loop hearing A4 at 1000, 1250 and 1251 ms. *)
Definition heard1000 : World ListCursor :=
  tick (hooks loaded) (onPitchAt 1000) loaded.

Definition heard1250 : World ListCursor :=
  tick (hooks loaded) (onPitchAt 1250) heard1000.

Definition heard1251 : World ListCursor :=
  tick (hooks loaded) (onPitchAt 1251) heard1250.

(** The tempo controller switched on at tempo 80. *)
Definition dynamicAt80 : World ListCursor :=
  on_hooks
    (fun h =>
       {| isTransportRunning := isTransportRunning h;
          bpm := JS.ofZ 80;
          currentBpm := JS.ofZ 80;
          dynamicTempoEnabled := true;
          awaitingFirstCorrect := awaitingFirstCorrect h;
          firstNoteMidi := firstNoteMidi h;
          targetInfo := targetInfo h;
          measureNumber := measureNumber h;
          currentMeasure := currentMeasure h;
          status := status h;
          noteMarks := noteMarks h |})
    loaded.

(** ** Note names *)

Definition sharpNames : list string :=
  ["C"; "C#"; "D"; "D#"; "E"; "F"; "F#"; "G"; "G#"; "A"; "A#"; "B"]%string.

(** A number in a template string: its decimal digits. *)
Definition decimal (z : Z) : string := NilZero.string_of_int (Z.to_int z).

(** [midiToName].  [%] is the remainder that takes the sign of the dividend;
    an index outside the table reads [undefined], which a template string
    prints as "undefined". *)
Definition midiToName (midi : Z) : string :=
  let noteIndex := Z.rem (midi + 1200) 12 in
  let octave := midi / 12 - 1 in
  let name :=
    if noteIndex <? 0 then "undefined"%string
    else nth (Z.to_nat noteIndex) sharpNames "undefined"%string in
  (name ++ decimal octave)%string.

(** ** Building the sequence from the score document *)

(** What the loaders read of a [<pitch>] element: the text of [<step>], and
    the numbers that [parseInt] reads in [<alter>] and [<octave>] (numeric
    text), each possibly absent. *)
Record PitchEl : Type := {
  stepEl : option string;
  alterEl : option Z;
  octaveEl : option Z
}.

(** A [<note>]: whether it has a [<rest>], its [<pitch>], and the tag names
    inside its [<articulations>]. *)
Record NoteEl : Type := {
  restEl : bool;
  pitchEl : option PitchEl;
  articulationsEl : option (list string)
}.

(** A [<measure>]: the tag names inside its first [<dynamics>], and its
    notes in document order. *)
Record MeasureEl : Type := {
  dynamicsEl : option (list string);
  noteEls : list NoteEl
}.

(** [stepToSemitone[step]] *)
Definition stepToSemitone (step : string) : option Z :=
  if String.eqb step "C" then Some 0
  else if String.eqb step "D" then Some 2
  else if String.eqb step "E" then Some 4
  else if String.eqb step "F" then Some 5
  else if String.eqb step "G" then Some 7
  else if String.eqb step "A" then Some 9
  else if String.eqb step "B" then Some 11
  else None.

(** [textContent || 'C'] *)
Definition stepOf (p : PitchEl) : string :=
  match stepEl p with
  | Some s => if String.eqb s "" then "C"%string else s
  | None => "C"%string
  end.

Definition alterOf (p : PitchEl) : Z :=
  match alterEl p with Some a => a | None => 0 end.

Definition octaveOf (p : PitchEl) : Z :=
  match octaveEl p with Some o => o | None => 4 end.

(** [(octave + 1) * 12 + (stepToSemitone[step] ?? 0) + alter] *)
Definition midiOfPitch (p : PitchEl) : Z :=
  let base := match stepToSemitone (stepOf p) with Some b => b | None => 0 end in
  let semitone := base + alterOf p in
  (octaveOf p + 1) * 12 + semitone.

(** The first of [types] that is among the tags [present]. *)
Fixpoint firstPresent (types present : list string) : option string :=
  match types with
  | [] => None
  | type :: rest =>
      if existsb (String.eqb type) present then Some type
      else firstPresent rest present
  end.

Definition dynamicTypes : list string :=
  ["p"; "mp"; "mf"; "f"; "pp"; "ff"]%string.

Definition articulationTypes : list string :=
  ["accent"; "staccato"; "tenuto"; "marcato"]%string.

(** The string a pitch is assigned to: the ranges overlap, the first match
    wins. *)
Definition estimateString (midi : Z) : option string :=
  if (midi >=? 55) && (midi <=? 66) then Some "G"%string
  else if (midi >=? 62) && (midi <=? 73) then Some "D"%string
  else if (midi >=? 69) && (midi <=? 80) then Some "A"%string
  else if (midi >=? 76) && (midi <=? 87) then Some "E"%string
  else None.

Definition estimatePosition (octave : Z) : option Z :=
  if octave >=? 5 then Some (Z.max 1 ((octave - 4) / 2 + 1)) else None.

(** One round of the loop of [loadSample] over the notes: the element it
    pushes, if any. *)
Definition buildElement (dynamics : option (list string)) (n : NoteEl)
  : option MusicalElement :=
  if restEl n then None
  else
    match pitchEl n with
    | None => None
    | Some p =>
        let alter := alterOf p in
        let octave := octaveOf p in
        let midi := midiOfPitch p in
        let element :=
          {| midi := midi;
             accidental := if negb (alter =? 0) then Some alter else None;
             dynamic :=
               match dynamics with
               | Some present => firstPresent dynamicTypes present
               | None => None
               end;
             articulation :=
               match articulationsEl n with
               | Some present => firstPresent articulationTypes present
               | None => None
               end;
             position := estimatePosition octave;
             string_ := estimateString midi |} in
        if (midi >=? 21) && (midi <=? 108) then Some element else None
    end.

Definition optionToList {A : Type} (o : option A) : list A :=
  match o with Some a => [a] | None => [] end.

(** The sequence [loadSample] builds from the document. *)
Definition buildSequence (doc : list MeasureEl) : list MusicalElement :=
  flat_map
    (fun m =>
       flat_map (fun n => optionToList (buildElement (dynamicsEl m) n))
         (noteEls m))
    doc.

(** The plain elements of the other two loaders: [loadFromGithub] keeps
    pitches 21..108, the file upload keeps every pitch. *)
Definition buildPlain (validate : bool) (n : NoteEl) : option MusicalElement :=
  if restEl n then None
  else
    match pitchEl n with
    | None => None
    | Some p =>
        let midi := midiOfPitch p in
        let element :=
          {| midi := midi; accidental := None; dynamic := None;
             articulation := None; position := None; string_ := None |} in
        if negb validate || ((midi >=? 21) && (midi <=? 108))
        then Some element else None
    end.

Definition buildPlainSequence (validate : bool) (doc : list MeasureEl)
  : list MusicalElement :=
  flat_map (fun m => flat_map (fun n => optionToList (buildPlain validate n))
                       (noteEls m))
    doc.

(** The notes of a measure that are not rests. *)
Definition noteCount (m : MeasureEl) : nat :=
  List.length (filter (fun n => negb (restEl n)) (noteEls m)).

(** The loop over the measures that fills [measureBoundaries]. *)
Fixpoint boundariesFrom (noteIndex : nat) (measureEls : list MeasureEl)
  : list nat :=
  match measureEls with
  | [] => []
  | m :: rest =>
      if (0 <? noteCount m)%nat
      then (noteIndex + noteCount m)%nat
           :: boundariesFrom (noteIndex + noteCount m) rest
      else boundariesFrom noteIndex rest
  end.

Definition parseMeasureBoundaries (doc : list MeasureEl) : list nat :=
  0%nat :: boundariesFrom 0 doc.

(** ** The look-ahead scheduler of the metronome *)

(** [nextNoteTimeRef], [beatNumberRef] and the clicks created so far, each
    with its beat number and whether it is accented. *)
Record Beats : Type := {
  nextNoteTime : JS.number;
  beatNumber : Z;
  clicks : list (Z * bool)
}.

(** [scheduleNote]: [accent && beatNumber % 4 === 0] (the practice
    component's [scheduleMetronomeBeat] is the case [accent = true]). *)
Definition isAccentBeat (accent : bool) (beatNumber : Z) : bool :=
  accent && (Z.rem beatNumber 4 =? 0).

(** [while (nextNoteTime < currentTime + 0.1) { scheduleNote(beatNumber);
    beatNumber++; nextNoteTime += secondsPerBeat }], under a bound on the
    rounds. *)
Fixpoint schedulerLoop (fuel : nat) (accent : bool) (spb : JS.number)
    (currentTime : Q) (b : Beats) : option Beats :=
  if JS.lt (nextNoteTime b) (JS.Finite (currentTime + 0.1)) then
    match fuel with
    | O => None
    | S fuel' =>
        schedulerLoop fuel' accent spb currentTime
          {| nextNoteTime := JS.add (nextNoteTime b) spb;
             beatNumber := beatNumber b + 1;
             clicks :=
               clicks b ++ [(beatNumber b, isAccentBeat accent (beatNumber b))]
          |}
    end
  else Some b.

(** The [Metronome] component: [secondsPerBeat = 60 / bpm], the tempo as
    typed. *)
Definition metronomeSecondsPerBeat (bpm : JS.number) : JS.number :=
  JS.div (JS.ofZ 60) bpm.

Definition scheduler (fuel : nat) (accent : bool) (bpm : JS.number)
    (currentTime : Q) (b : Beats) : option Beats :=
  schedulerLoop fuel accent (metronomeSecondsPerBeat bpm) currentTime b.


(** ** More callbacks, and runs of the component *)

Section Runs.

Context {C : Type} {NC : NotationCursor C}.

(** [resetStartPoint] ([customStartIndex], which it sets to [null], has no
    other writer). *)
Definition resetStartPoint (w : World C) : World C :=
  let w :=
    on_hooks (set_status (StatusText "Starting point reset to beginning")) w in
  match the_cursor w with
  | Some c =>
      let w := set_cursor (fst (ensureCursorOnNote (reset c))) w in
      match scoreMidiSequenceRef (refs w) with
      | firstElement :: _ =>
          on_hooks (set_targetInfo (Some (midi firstElement))) w
      | [] => w
      end
  | None => w
  end.

(** What happens to the component: a sample arrives, the beat timer fires,
    the transport is stopped, the user jumps to a measure or resets the
    start.  A callback comes with the values it captured. *)
Inductive Event : Type :=
| Sampled (cl : Hooks) (s : Sample)
| TimerFired (cl : Hooks) (now : Q)
| TransportStopped
| Jumped (cl : Hooks)
| StartReset.

(** A timer that was cleared does not fire.  (The ref keeps the id of a
    timer that has fired, so a list of events may hold more firings than
    the browser delivers; what holds of every list holds of those.) *)
Definition fire (cl : Hooks) (now : Q) (w : World C) : World C :=
  match schedulerIdRef (refs w) with
  | Some _ => step cl now w
  | None => w
  end.

Definition applyEvent (w : World C) (e : Event) : World C :=
  match e with
  | Sampled cl s => tick cl s w
  | TimerFired cl now => fire cl now w
  | TransportStopped => stopTransport w
  | Jumped cl => jumpToMeasure cl w
  | StartReset => resetStartPoint w
  end.

Definition run (events : list Event) (w : World C) : World C :=
  fold_left applyEvent events w.

End Runs.

(** ** Notions used in the properties

    Names for what the properties below speak about. *)

(** Two elements that differ at most in position, dynamic aside. *)
Definition samePitchAndMarks (e e' : MusicalElement) : Prop :=
  midi e = midi e' /\ accidental e = accidental e'
  /\ articulation e = articulation e' /\ string_ e = string_ e'.

(** A4 on the A string in position [p]. *)
Definition a4InPosition (p : Z) : MusicalElement :=
  {| midi := 69; accidental := None; dynamic := None; articulation := None;
     position := Some p; string_ := Some "A"%string |}.

(** The range the loaders validate a pitch against. *)
Definition inPianoRange (m : Z) : bool := (m >=? 21) && (m <=? 108).

(** Three beats of the callback of the loaded component. *)
Definition threeBeats : list (Hooks * Q) :=
  [(hooks loaded, 1000%Q); (hooks loaded, 2000%Q); (hooks loaded, 3000%Q)].

(** A sample, a beat, a jump, a stop. *)
Definition someEvents : list Event :=
  [Sampled (hooks loaded) (onPitchAt 1000); TimerFired (hooks loaded) 2000;
   Jumped (hooks loaded); TransportStopped].

(** The two tempos a callback can set, from the values it captured. *)
Definition slowedTempo (cl : Hooks) : JS.number :=
  JS.max (JS.ofZ 40) (JS.sub (currentBpm cl) (JS.ofZ 8)).

Definition recoveredTempo (cl : Hooks) : JS.number :=
  JS.min (bpm cl) (JS.add (currentBpm cl) (JS.ofZ 2)).


(** The timer firing with the given callbacks at the given times. *)
Definition timerEvents (fires : list (Hooks * Q)) : list Event :=
  map (fun f => TimerFired (fst f) (snd f)) fires.

(** How often the timer fires in a list of events. *)
Fixpoint countFired (events : list Event) : nat :=
  match events with
  | [] => 0
  | TimerFired _ _ :: rest => S (countFired rest)
  | _ :: rest => countFired rest
  end.

Section RunNotions.

Context {C : Type} {NC : NotationCursor C}.

(** What a sample adds to the flags of the grading window. *)
Definition heardPitch (s : Sample) (w : World C) : bool :=
  isTransportRunningRef (refs w) && hasPitch s.

Definition heardAccurate (cl : Hooks) (s : Sample) (w : World C) : bool :=
  heardPitch s w
  && withinThreshold (rawCentsOf s (effectiveMidi cl w))
       (getGradingThreshold (midiSeqTarget w)).

(** An accurate pitch is a pitch. *)
Definition windowConsistent (w : World C) : Prop :=
  windowHadAccurateRef (refs w) = true -> windowHadAnyPitchRef (refs w) = true.

(** The running state, the running ref and the timer agree. *)
Record transportCoherent (w : World C) : Prop := {
  tc_state : isTransportRunning (hooks w) = isTransportRunningRef (refs w);
  tc_timer :
    schedulerIdRef (refs w) <> None <-> isTransportRunningRef (refs w) = true
}.

(** What a callback that does not grade leaves as it was: the sequence,
    its index and the marks. *)
Record keeps_sequence (w w' : World C) : Prop := {
  ks_seq : scoreMidiSequenceRef (refs w') = scoreMidiSequenceRef (refs w);
  ks_index : currentStepIndexRef (refs w') = currentStepIndexRef (refs w);
  ks_marksRef : noteMarksRef (refs w') = noteMarksRef (refs w);
  ks_marks : noteMarks (hooks w') = noteMarks (hooks w)
}.

(** From [w] to [w'] with at most [n] beats in between. *)
Record advances (n : nat) (w w' : World C) : Prop := {
  adv_seq : scoreMidiSequenceRef (refs w') = scoreMidiSequenceRef (refs w);
  adv_lower :
    (currentStepIndexRef (refs w) <= currentStepIndexRef (refs w'))%nat;
  adv_upper :
    (currentStepIndexRef (refs w') <= currentStepIndexRef (refs w) + n)%nat;
  adv_range :
    (currentStepIndexRef (refs w)
     < List.length (scoreMidiSequenceRef (refs w)))%nat ->
    (currentStepIndexRef (refs w')
     < List.length (scoreMidiSequenceRef (refs w)))%nat;
  adv_marks :
    exists added : list Kind,
      noteMarksRef (refs w') = noteMarksRef (refs w) ++ added
      /\ (List.length added <= n)%nat
}.

(** The cursor after [k] calls of [next()]. *)
Fixpoint nextTimes (k : nat) (c : C) : C :=
  match k with
  | O => c
  | S k' => nextTimes k' (next c)
  end.

(** The notation cursor after [k] beats: each beat moves it to the next
    position that carries a note. *)
Fixpoint cursorAfterBeats (k : nat) (c : C) : C :=
  match k with
  | O => c
  | S k' => cursorAfterBeats k' (fst (ensureCursorOnNote (next c)))
  end.

End RunNotions.

(** What holds of every element the loader builds. *)
Record wellFormed (e : MusicalElement) : Prop := {
  wf_midi : 21 <= midi e <= 108;
  wf_accidental : accidental e <> Some 0;
  wf_position : forall p, position e = Some p -> 1 <= p;
  wf_string : string_ e = estimateString (midi e);
  wf_dynamic : forall d, dynamic e = Some d -> In d dynamicTypes;
  wf_articulation :
    forall a, articulation e = Some a -> In a articulationTypes
}.

(** The notes of the document that are not rests, and the measures that
    have one. *)
Definition totalNotes (doc : list MeasureEl) : nat :=
  fold_right (fun m acc => (noteCount m + acc)%nat) 0%nat doc.

Definition measuresWithNotes (doc : list MeasureEl) : list MeasureEl :=
  filter (fun m => (0 <? noteCount m)%nat) doc.



(** A small document: a measure with A4 and a rest, an empty measure, and
    a measure with a staccato C#6 and a note without pitch. *)
Definition pitchOf (step : string) (alter : option Z) (octave : Z) : PitchEl :=
  {| stepEl := Some step; alterEl := alter; octaveEl := Some octave |}.

Definition smallDocument : list MeasureEl :=
  [ {| dynamicsEl := Some ["mf"%string];
       noteEls :=
         [ {| restEl := false; pitchEl := Some (pitchOf "A" None 4);
              articulationsEl := None |};
           {| restEl := true; pitchEl := None; articulationsEl := None |} ] |};
    {| dynamicsEl := None; noteEls := [] |};
    {| dynamicsEl := None;
       noteEls :=
         [ {| restEl := false; pitchEl := Some (pitchOf "C" (Some 1) 6);
              articulationsEl := Some ["staccato"%string] |};
           {| restEl := false; pitchEl := None; articulationsEl := None |} ]
    |} ].

(** * Properties *)

(** ** The grading threshold *)

Lemma attr_is_dec (s : option string) (lit : string) :
  attr_is s lit = match s with
                  | Some v => if string_dec v lit then true else false
                  | None => false
                  end.
Proof.
  destruct s as [v|]; simpl; [|reflexivity].
  destruct (String.eqb_spec v lit), (string_dec v lit); congruence.
Qed.

(** C1. [getGradingThreshold] returns the base chosen by the octave
    [floor(midi/12) - 1] (35 from octave 6, 30 at octave 5, 25 up to octave
    3, 20 otherwise) plus 5 for a non-zero accidental, plus
    [3 * (position - 1)] for a position above 1, plus 3 on the E string, plus
    2 for staccato, capped at 50; without an element it returns 20.  It is a
    total function: every combination of absent or unknown attributes has a
    value. *)
Theorem getGradingThreshold_spec (element : option MusicalElement) :
  getGradingThreshold element =
  match element with
  | Some e => ThresholdSpec.threshold e
  | None => 20
  end.
Proof.
  destruct element as [e|]; [|reflexivity].
  unfold getGradingThreshold, ThresholdSpec.threshold, ThresholdSpec.base,
    ThresholdSpec.accidental_adj, ThresholdSpec.position_adj,
    ThresholdSpec.string_adj, ThresholdSpec.articulation_adj,
    ThresholdSpec.octave, correctDuringTransportCents.
  rewrite !attr_is_dec.
  destruct e as [m acc dyn art pos str].
  cbn [midi accidental position string_ articulation].
  set (o := m / 12 - 1).
  assert (Hacc :
    forall b, match acc with
              | Some a => if negb (a =? 0) then b + 5 else b
              | None => b
              end
              = b + match acc with Some 0 | None => 0 | Some _ => 5 end).
  { intros b. destruct acc as [[|a|a]|]; cbn [Z.eqb negb]; lia. }
  assert (Hpos :
    forall b, match pos with
              | Some p => if negb (p =? 0) && (p >? 1) then b + (p - 1) * 3 else b
              | None => b
              end
              = b + match pos with
                    | Some p => if Z_gt_dec p 1 then 3 * (p - 1) else 0
                    | None => 0
                    end).
  { intros b. destruct pos as [p|]; [|lia].
    destruct (Z_gt_dec p 1) as [Hp|Hp].
    - replace (p =? 0) with false by (symmetry; apply Z.eqb_neq; lia).
      replace (p >? 1) with true
        by (symmetry; rewrite Z.gtb_ltb; apply Z.ltb_lt; lia).
      cbn [negb andb]. lia.
    - replace (p >? 1) with false
        by (symmetry; rewrite Z.gtb_ltb; apply Z.ltb_ge; lia).
      rewrite andb_false_r. lia. }
  rewrite Hacc, Hpos. clear Hacc Hpos.
  assert (Hbase :
    (if o >=? 6 then 35 else if o >=? 5 then 30 else if o <=? 3 then 25 else 20)
    = (if Z_ge_dec o 6 then 35 else if Z_ge_dec o 5 then 30
       else if Z_le_dec o 3 then 25 else 20)).
  { rewrite !Z.geb_leb.
    destruct (Z.leb_spec 6 o), (Z.leb_spec 5 o), (Z.leb_spec o 3),
      (Z_ge_dec o 6), (Z_ge_dec o 5), (Z_le_dec o 3); lia. }
  rewrite Hbase. clear Hbase.
  f_equal.
  destruct str as [s|]; [destruct (string_dec s "E")|];
    (destruct art as [a|]; [destruct (string_dec a "staccato")|]).
  all: lia.
Qed.

Example threshold_A4 : getGradingThreshold (Some (note 69)) = 20.
Proof. reflexivity. Qed.

Example threshold_low_G : getGradingThreshold (Some (note 55)) = 25.
Proof. reflexivity. Qed.

(** E6 sharp, staccato, third position, E string: 35 + 5 + 6 + 3 + 2 = 51,
    capped. *)
Example threshold_capped :
  getGradingThreshold
    (Some {| midi := 88; accidental := Some 1; dynamic := Some "f"%string;
             articulation := Some "staccato"%string; position := Some 3;
             string_ := Some "E"%string |})
  = 50.
Proof. reflexivity. Qed.

(** Attributes the function does not know leave the base alone. *)
Example threshold_unknown_attributes :
  getGradingThreshold
    (Some {| midi := 76; accidental := Some 0; dynamic := Some "sfz"%string;
             articulation := Some "legato"%string; position := Some (-2);
             string_ := Some "C"%string |})
  = 30.
Proof. reflexivity. Qed.

(** ** Cents normalisation *)

(** More rounds never change the result of a loop that has finished. *)
Section MoreFuel.

Variable num : Type.
Variables (c600 cm600 c1200 : num).
Variables (gt leq : num -> num -> bool).
Variables (plus minus : num -> num -> num).

Lemma while_above_more_fuel (fuel : nat) :
  forall n v,
    while_above num c600 c1200 gt minus fuel n = Some v ->
    forall fuel', (fuel <= fuel')%nat ->
    while_above num c600 c1200 gt minus fuel' n = Some v.
Proof.
  induction fuel as [|fuel IH]; intros n v Hv fuel' Hle.
  - destruct fuel'; simpl in *; destruct (gt n c600); congruence.
  - destruct fuel' as [|fuel']; [lia|].
    simpl in *. destruct (gt n c600); [|exact Hv].
    apply IH with (1 := Hv). lia.
Qed.

Lemma while_below_more_fuel (fuel : nat) :
  forall n v,
    while_below num cm600 c1200 leq plus fuel n = Some v ->
    forall fuel', (fuel <= fuel')%nat ->
    while_below num cm600 c1200 leq plus fuel' n = Some v.
Proof.
  induction fuel as [|fuel IH]; intros n v Hv fuel' Hle.
  - destruct fuel'; simpl in *; destruct (leq n cm600); congruence.
  - destruct fuel' as [|fuel']; [lia|].
    simpl in *. destruct (leq n cm600); [|exact Hv].
    apply IH with (1 := Hv). lia.
Qed.

End MoreFuel.

Lemma Qlt_bool_iff (x y : Q) : JS.Qlt_bool x y = true <-> (x < y)%Q.
Proof.
  unfold JS.Qlt_bool. rewrite negb_true_iff.
  split; intros Hx.
  - apply Qnot_le_lt. intros Hle. apply Qle_bool_iff in Hle. congruence.
  - destruct (Qle_bool y x) eqn:E; [|reflexivity].
    apply Qle_bool_iff in E. lra.
Qed.

Lemma Qlt_bool_false (x y : Q) : JS.Qlt_bool x y = false <-> (y <= x)%Q.
Proof.
  unfold JS.Qlt_bool. rewrite negb_false_iff. apply Qle_bool_iff.
Qed.

Lemma Qle_bool_false (x y : Q) : Qle_bool x y = false <-> (y < x)%Q.
Proof.
  split; intros Hx.
  - apply Qnot_le_lt. intros Hle. apply Qle_bool_iff in Hle. congruence.
  - destruct (Qle_bool x y) eqn:E; [|reflexivity].
    apply Qle_bool_iff in E. lra.
Qed.

Lemma Qlt_bool_inject_Z (a b : Z) :
  JS.Qlt_bool (inject_Z a) (inject_Z b) = (a <? b).
Proof.
  destruct (Z.ltb_spec a b) as [Hlt|Hge].
  - apply Qlt_bool_iff. rewrite <- Zlt_Qlt. exact Hlt.
  - apply Qlt_bool_false. rewrite <- Zle_Qle. exact Hge.
Qed.

Section ExactCents.

Local Open Scope Q_scope.

(** The first loop, in exact arithmetic: with a round for every 1200
    above 600 it ends at or below 600, never crosses -600 from above, and
    moves by a multiple of 1200. *)
Lemma while_above_exact (fuel : nat) :
  forall n : Q,
    n <= 600 + 1200 * inject_Z (Z.of_nat fuel) ->
    exists v,
      while_above Q 600 1200 (fun a b => JS.Qlt_bool b a) Qminus fuel n
      = Some v
      /\ v <= 600
      /\ (-600 < n -> -600 < v)
      /\ (n <= 600 -> v = n)
      /\ exists k : Z, v == n + 1200 * inject_Z k.
Proof.
  induction fuel as [|fuel IH]; intros n Hn.
  - change (inject_Z (Z.of_nat 0)) with 0 in Hn. cbn [while_above].
    exists n.
    assert (Hle : n <= 600) by lra.
    apply Qlt_bool_false in Hle. rewrite Hle.
    repeat split; try tauto; try lra.
    exists 0%Z. change (inject_Z 0) with 0. lra.
  - cbn [while_above]. destruct (JS.Qlt_bool 600 n) eqn:E.
    + apply Qlt_bool_iff in E.
      destruct (IH (n - 1200)) as (v & Hv & Hhi & Hlo & _ & k & Hk).
      { rewrite Nat2Z.inj_succ, <- Z.add_1_r, inject_Z_plus in Hn.
        change (inject_Z 1) with 1 in Hn. lra. }
      exists v. repeat split; try assumption.
      * intros _. apply Hlo. lra.
      * intros Hle. lra.
      * exists (k - 1)%Z. unfold Z.sub. rewrite inject_Z_plus.
        change (inject_Z (- (1))) with (-1). lra.
    + apply Qlt_bool_false in E. exists n.
      repeat split; try tauto; try lra.
      exists 0%Z. change (inject_Z 0) with 0. lra.
Qed.

(** The second loop, likewise, upwards. *)
Lemma while_below_exact (fuel : nat) :
  forall n : Q,
    - 600 - 1200 * inject_Z (Z.of_nat fuel) < n ->
    exists v,
      while_below Q (-600) 1200 Qle_bool Qplus fuel n = Some v
      /\ -600 < v
      /\ (n <= 600 -> v <= 600)
      /\ exists k : Z, v == n + 1200 * inject_Z k.
Proof.
  induction fuel as [|fuel IH]; intros n Hn.
  - change (inject_Z (Z.of_nat 0)) with 0 in Hn. cbn [while_below].
    exists n.
    assert (Hlt : -600 < n) by lra.
    apply Qle_bool_false in Hlt. rewrite Hlt.
    repeat split; try tauto; try lra.
    exists 0%Z. change (inject_Z 0) with 0. lra.
  - cbn [while_below]. destruct (Qle_bool n (-600)) eqn:E.
    + apply Qle_bool_iff in E.
      destruct (IH (n + 1200)) as (v & Hv & Hlo & Hhi & k & Hk).
      { rewrite Nat2Z.inj_succ, <- Z.add_1_r, inject_Z_plus in Hn.
        change (inject_Z 1) with 1 in Hn. lra. }
      exists v. repeat split; try assumption.
      * intros _. apply Hhi. lra.
      * exists (k + 1)%Z. rewrite inject_Z_plus.
        change (inject_Z 1) with 1. lra.
    + apply Qle_bool_false in E. exists n.
      repeat split; try tauto; try lra.
      exists 0%Z. change (inject_Z 0) with 0. lra.
Qed.

Lemma enough_fuel_covers (x : Q) :
  Qabs x <= 1200 * inject_Z (Z.of_nat (enough_fuel x)).
Proof.
  unfold enough_fuel.
  assert (H0 : 0 <= Qabs x / 1200).
  { apply Qle_shift_div_l; [lra|]. pose proof (Qabs_nonneg x). lra. }
  assert (Hc : (0 <= Qceiling (Qabs x / 1200))%Z).
  { change 0%Z with (Qceiling 0). apply Qceiling_resp_le. exact H0. }
  rewrite Z2Nat.id by exact Hc.
  pose proof (Qle_ceiling (Qabs x / 1200)) as Hle.
  assert (Hx : Qabs x == 1200 * (Qabs x / 1200)) by field.
  lra.
Qed.

(** C2, as amended.  Where adding and subtracting 1200 is exact, as it is
    on doubles of magnitude at most 2^53, [normalizeCents x] terminates:
    every bound of at least [enough_fuel x] rounds gives the same value
    [v], with [-600 < v <= 600] and [v = x + 1200 k] for an integer [k]. *)
Theorem normalizeCents_exact (x : Q) :
  Qabs x <= inject_Z (2 ^ 53) ->
  exists v : Q,
    (forall fuel, (enough_fuel x <= fuel)%nat ->
                  normalizeCents fuel x = Some v)
    /\ -600 < v /\ v <= 600
    /\ exists k : Z, v == x + 1200 * inject_Z k.
Proof.
  intros _.
  pose proof (enough_fuel_covers x) as Hf.
  pose proof (Qle_Qabs x) as Hup.
  assert (Hdown : - Qabs x <= x).
  { rewrite <- (Qopp_involutive x) at 2. apply Qopp_le_compat.
    rewrite <- Qabs_opp. apply Qle_Qabs. }
  set (f := enough_fuel x) in *.
  destruct (while_above_exact f x)
    as (u & Hu & Hu600 & Hulo & Hueq & ku & Hku); [lra|].
  destruct (while_below_exact f u) as (v & Hv & Hvlo & Hvhi & kv & Hkv).
  { destruct (Qlt_le_dec 600 x) as [Hx|Hx].
    - assert (-600 < u) by (apply Hulo; lra).
      assert (0 <= inject_Z (Z.of_nat f)).
      { change 0 with (inject_Z 0). rewrite <- Zle_Qle. lia. }
      lra.
    - rewrite (Hueq Hx). lra. }
  exists v. split; [|split; [exact Hvlo|split; [exact (Hvhi Hu600)|]]].
  - intros fuel Hle. unfold normalizeCents, normalizeCents_gen.
    rewrite (while_above_more_fuel _ _ _ _ _ _ _ _ Hu _ Hle).
    exact (while_below_more_fuel _ _ _ _ _ _ _ _ Hv _ Hle).
  - exists (ku + kv)%Z. rewrite inject_Z_plus. lra.
Qed.

(** At 1850.25 cents: two rounds down, to -549.75. *)
Lemma normalizeCents_exact_witness :
  Qabs 1850.25 <= inject_Z (2 ^ 53)
  /\ exists v : Q,
       (forall fuel, (enough_fuel 1850.25 <= fuel)%nat ->
                     normalizeCents fuel 1850.25 = Some v)
       /\ -600 < v /\ v <= 600
       /\ exists k : Z, v == 1850.25 + 1200 * inject_Z k.
Proof.
  assert (H : Qabs 1850.25 <= inject_Z (2 ^ 53))
    by (apply Qle_bool_iff; vm_compute; reflexivity).
  split; [exact H|].
  exact (normalizeCents_exact 1850.25 H).
Defined.

End ExactCents.

Example normalizeCents_1850 :
  normalizeCents 2 1850.25 = Some (1850.25 - 1200 - 1200)%Q.
Proof. reflexivity. Qed.

Section FloatCents.

Local Open Scope float_scope.

Example normalizeCents_float_1500 :
  normalizeCents_float 2 1500 = Some 300.
Proof. reflexivity. Qed.

Example normalizeCents_float_minus_600 :
  normalizeCents_float 2 (-600) = Some 600.
Proof. reflexivity. Qed.

(** At 1e20 the spacing of doubles is 16384: subtracting 1200 gives back
    1e20, so the first loop makes no progress. *)
Lemma while_above_float_absorbed (fuel : nat) :
  while_above float 600 1200 (fun a b => PrimFloat.ltb b a) PrimFloat.sub
    fuel 1e20 = None.
Proof.
  induction fuel as [|fuel IH]; [reflexivity|].
  change (while_above float 600 1200 (fun a b => PrimFloat.ltb b a)
            PrimFloat.sub fuel (PrimFloat.sub 1e20 1200) = None).
  change (PrimFloat.sub 1e20 1200) with 1e20.
  exact IH.
Qed.

(** C2, as stated, fails: 1e20 is a finite double, and no number of
    rounds lets [normalizeCents] return on it. *)
Lemma normalizeCents_float_diverges :
  PrimFloat.is_finite 1e20 = true
  /\ 1e20 - 1200 = 1e20
  /\ ~ exists (fuel : nat) (v : float),
         normalizeCents_float fuel 1e20 = Some v.
Proof.
  split; [reflexivity|]. split; [reflexivity|].
  intros (fuel & v & Hv).
  unfold normalizeCents_float, normalizeCents_gen in Hv.
  rewrite while_above_float_absorbed in Hv. discriminate.
Qed.

End FloatCents.

(** ** The beat interval *)

Lemma sanitizeBpm_finite (q : Q) :
  sanitizeBpm (JS.Finite q) = JS.ofZ (Z.min 240 (Z.max 20 (Qfloor q))).
Proof.
  unfold sanitizeBpm, JS.floor, JS.max, JS.min, JS.ofZ, JS.isFinite, JS.lt.
  cbn [negb].
  rewrite Qlt_bool_inject_Z.
  destruct (Z.ltb_spec 20 (Qfloor q)) as [H1|H1];
    rewrite Qlt_bool_inject_Z;
    [destruct (Z.ltb_spec (Qfloor q) 240) | destruct (Z.ltb_spec 20 240)];
    f_equal; f_equal; lia.
Qed.

Lemma sanitizeBpm_range (raw : JS.number) :
  exists b : Z,
    sanitizeBpm raw = JS.ofZ b /\ 20 <= b <= 240
    /\ (JS.isFinite raw = false -> b = 80)
    /\ (forall q, raw = JS.Finite q -> b = Z.min 240 (Z.max 20 (Qfloor q))).
Proof.
  destruct raw as [| | |q].
  1-3: exists 80; repeat split; try reflexivity; try lia; discriminate.
  exists (Z.min 240 (Z.max 20 (Qfloor q))).
  split; [apply sanitizeBpm_finite|].
  split; [lia|]. split; [discriminate|].
  intros q' Hq. injection Hq as <-. reflexivity.
Qed.

(** C10. For every [currentBpm], [NaN] and the infinities included,
    [sanitizeBpm currentBpm] is an integer [b] of [20..240] (80 when the
    input is not finite, the floor of the input clamped to [20..240]
    otherwise), [secondsPerBeat = 60 / b] is a positive finite number of
    [0.25..3], and the delay [secondsPerBeat * 1000] handed to the timer is a
    positive finite number of [250..3000]. *)
Theorem secondsPerBeat_bounds (currentBpm : JS.number) :
  exists (b : Z) (q : Q),
    sanitizeBpm currentBpm = JS.ofZ b
    /\ 20 <= b <= 240
    /\ (JS.isFinite currentBpm = false -> b = 80)
    /\ (forall r, currentBpm = JS.Finite r ->
                  b = Z.min 240 (Z.max 20 (Qfloor r)))
    /\ secondsPerBeat currentBpm = JS.Finite q
    /\ (q == 60 / inject_Z b)%Q
    /\ (0 < q)%Q /\ (1 # 4 <= q)%Q /\ (q <= 3)%Q
    /\ JS.mul (secondsPerBeat currentBpm) (JS.ofZ 1000)
       = JS.Finite (q * inject_Z 1000)
    /\ (250 <= q * inject_Z 1000)%Q /\ (q * inject_Z 1000 <= 3000)%Q.
Proof.
  destruct (sanitizeBpm_range currentBpm) as (b & Hb & Hrange & Hnf & Hfin).
  exists b, (inject_Z 60 / inject_Z b)%Q.
  assert (Hb0 : (20 <= inject_Z b)%Q).
  { change 20%Q with (inject_Z 20). rewrite <- Zle_Qle. lia. }
  assert (Hb1 : (inject_Z b <= 240)%Q).
  { change 240%Q with (inject_Z 240). rewrite <- Zle_Qle. lia. }
  assert (Hspb : secondsPerBeat currentBpm
                 = JS.Finite (inject_Z 60 / inject_Z b)).
  { unfold secondsPerBeat. rewrite Hb. unfold JS.div, JS.ofZ.
    destruct (Qeq_bool (inject_Z b) 0) eqn:E; [|reflexivity].
    apply Qeq_bool_iff in E. lra. }
  repeat (split; [assumption|]).
  change (inject_Z 60) with 60%Q in *.
  change (inject_Z 1000) with 1000%Q.
  assert (Hlo : (1 # 4 <= 60 / inject_Z b)%Q)
    by (apply Qle_shift_div_l; lra).
  assert (Hhi : (60 / inject_Z b <= 3)%Q)
    by (apply Qle_shift_div_r; lra).
  split; [reflexivity|].
  split; [lra|]. split; [exact Hlo|]. split; [exact Hhi|].
  split; [rewrite Hspb; reflexivity|].
  split; lra.
Qed.

Example sanitizeBpm_NaN : sanitizeBpm JS.NaN = JS.ofZ 80.
Proof. reflexivity. Qed.

Example sanitizeBpm_zero : sanitizeBpm (JS.ofZ 0) = JS.ofZ 20.
Proof. reflexivity. Qed.

Example sanitizeBpm_fraction : sanitizeBpm (JS.Finite 64.5) = JS.ofZ 64.
Proof. reflexivity. Qed.

(** ** The component: common lemmas *)

(** Projections of updated records, and nothing else. *)
Ltac simpl_world :=
  cbn [hooks refs osmdRef cursorElement
       isTransportRunning bpm currentBpm dynamicTempoEnabled
       awaitingFirstCorrect firstNoteMidi targetInfo measureNumber
       currentMeasure status noteMarks
       schedulerIdRef isTransportRunningRef awaitingFirstCorrectRef
       windowHadAccurateRef windowHadAnyPitchRef lastTargetMidiRef
       consecutiveErrorsRef lastErrorTimeRef currentStepIndexRef
       scoreMidiSequenceRef noteMarksRef stableForMsRef
       set_isTransportRunning set_currentBpm set_awaitingFirstCorrect
       set_firstNoteMidi set_targetInfo set_measureNumber set_currentMeasure
       set_status set_noteMarks
       set_schedulerIdRef set_isTransportRunningRef
       set_awaitingFirstCorrectRef set_windowHadAccurateRef
       set_windowHadAnyPitchRef set_lastTargetMidiRef
       set_consecutiveErrorsRef set_lastErrorTimeRef set_currentStepIndexRef
       set_noteMarksRef set_stableForMsRef
       on_hooks on_refs set_cursor cursor sourceMeasures] in *.

Ltac split_ifs :=
  repeat match goal with
         | |- context [if ?b then _ else _] => destruct b eqn:?
         end.




Section Transport.

Context {C : Type} {NC : NotationCursor C}.

(** What the tempo update and the marking of a beat leave alone. *)
Record beat_frame (w w' : World C) : Prop := {
  bf_osmd : osmdRef w' = osmdRef w;
  bf_dom : cursorElement w' = cursorElement w;
  bf_running : isTransportRunning (hooks w') = isTransportRunning (hooks w);
  bf_bpm : bpm (hooks w') = bpm (hooks w);
  bf_status : status (hooks w') = status (hooks w);
  bf_timer : schedulerIdRef (refs w') = schedulerIdRef (refs w);
  bf_runningRef :
    isTransportRunningRef (refs w') = isTransportRunningRef (refs w);
  bf_index : currentStepIndexRef (refs w') = currentStepIndexRef (refs w);
  bf_seq : scoreMidiSequenceRef (refs w') = scoreMidiSequenceRef (refs w)
}.

Lemma updateDynamicTempo_frame cl a now (w : World C) :
  beat_frame w (updateDynamicTempo cl a now w)
  /\ noteMarksRef (refs (updateDynamicTempo cl a now w))
     = noteMarksRef (refs w).
Proof.
  unfold updateDynamicTempo.
  destruct (dynamicTempoEnabled cl), a; cbn [negb]; split_ifs;
    split; try constructor; reflexivity.
Qed.

Lemma markBeat_frame cl now (w : World C) : beat_frame w (markBeat cl now w).
Proof.
  unfold markBeat. destruct (cursorElement w) eqn:E.
  - match goal with
    | |- beat_frame _ (updateDynamicTempo ?cl ?a ?t ?v) =>
        destruct (proj1 (updateDynamicTempo_frame cl a t v))
    end.
    simpl_world. constructor; assumption.
  - constructor; reflexivity.
Qed.

Lemma markBeat_marks cl now (w : World C) :
  noteMarksRef (refs (markBeat cl now w))
  = if cursorElement w
    then noteMarksRef (refs w)
         ++ [kindOf (windowHadAccurateRef (refs w))
               (windowHadAnyPitchRef (refs w))]
    else noteMarksRef (refs w).
Proof.
  unfold markBeat. destruct (cursorElement w); [|reflexivity].
  rewrite (proj2 (updateDynamicTempo_frame _ _ _ _)). reflexivity.
Qed.

Lemma startTransport_awaiting cl now (v : World C) :
  awaitingFirstCorrectRef (refs (startTransport cl now v))
  = awaitingFirstCorrectRef (refs v).
Proof.
  unfold startTransport.
  destruct (isTransportRunning cl); [reflexivity|].
  destruct (the_cursor v); [|reflexivity].
  destruct (dynamicTempoEnabled cl); reflexivity.
Qed.

Lemma startTransport_runs cl now (v : World C) :
  isTransportRunning cl = false ->
  the_cursor v <> None ->
  isTransportRunningRef (refs (startTransport cl now v)) = true
  /\ schedulerIdRef (refs (startTransport cl now v)) = Some (armStep cl now).
Proof.
  intros Hrun Hc. unfold startTransport. rewrite Hrun.
  destruct (the_cursor v); [|congruence].
  destruct (dynamicTempoEnabled cl); split; reflexivity.
Qed.

(** ** Beat classification *)

(** C3. When [step] runs at a beat boundary (the cursor not at its end, the
    cursor's element on the page), it appends exactly one mark to the marks
    of the run, and that mark is [correct] iff the window's accurate flag is
    set, [incorrect] iff it is not set and the any-pitch flag is, [missed]
    iff neither is set. *)
Theorem step_classification (cl : Hooks) (now : Q) (w : World C) (c : C) :
  the_cursor w = Some c ->
  endReached c = false ->
  cursorElement w = true ->
  exists kind : Kind,
    noteMarksRef (refs (step cl now w)) = noteMarksRef (refs w) ++ [kind]
    /\ (kind = correct <-> windowHadAccurateRef (refs w) = true)
    /\ (kind = incorrect <->
        windowHadAccurateRef (refs w) = false
        /\ windowHadAnyPitchRef (refs w) = true)
    /\ (kind = missed <->
        windowHadAccurateRef (refs w) = false
        /\ windowHadAnyPitchRef (refs w) = false).
Proof.
  intros Hc Hend Hdom.
  exists (kindOf (windowHadAccurateRef (refs w))
            (windowHadAnyPitchRef (refs w))).
  split.
  - unfold step. rewrite Hc, Hend.
    pose proof (markBeat_marks cl now w) as Hm. rewrite Hdom in Hm.
    set (w1 := markBeat cl now w) in *. clearbody w1.
    unfold stopTransport.
    repeat match goal with
           | |- context [if ?b then _ else _] => destruct b
           | |- context [match nth_error ?l ?n with _ => _ end] =>
               destruct (nth_error l n)
           end; simpl_world; exact Hm.
  - destruct (windowHadAccurateRef (refs w)),
      (windowHadAnyPitchRef (refs w)); cbn;
      repeat split; intros; try congruence; try tauto;
      match goal with H : _ /\ _ |- _ => destruct H; congruence end.
Qed.

(** ** The tempo controller *)


(** ** Starting the transport *)



(** ** Scheduling the next beat *)


(** ** The start gate *)

Lemma isAccurate_awaiting cl s (w : World C) :
  isAccurate cl s w = true -> awaitingFirstCorrectRef (refs w) = true.
Proof.
  unfold isAccurate. intros H.
  destruct (awaitingFirstCorrectRef (refs w)); [reflexivity|discriminate].
Qed.

(** C8, as amended. A sample that is not accurate (or arrives when the gate
    is no longer waiting) empties the streak and starts nothing.  An
    accurate sample joins the streak; the transport is started exactly when
    the sample comes strictly more than 250 ms after the first instant of
    its streak: up to and including 250 ms the gate keeps waiting and no
    timer is armed; beyond, the gate stops waiting and, the transport not
    running and a cursor at hand, the transport runs with its first beat
    armed. *)
Theorem tick_start_gate (cl : Hooks) (s : Sample) (w : World C) :
  exists w' : World C,
    w' = tick cl s w
    /\ (isAccurate cl s w = false ->
        stableForMsRef (refs w') = 0%Q
        /\ awaitingFirstCorrectRef (refs w')
           = awaitingFirstCorrectRef (refs w)
        /\ isTransportRunningRef (refs w') = isTransportRunningRef (refs w)
        /\ schedulerIdRef (refs w') = schedulerIdRef (refs w))
    /\ (isAccurate cl s w = true ->
        (stableTime s - streakStart s w <= 250)%Q ->
        stableForMsRef (refs w') = streakStart s w
        /\ awaitingFirstCorrectRef (refs w') = true
        /\ isTransportRunningRef (refs w') = isTransportRunningRef (refs w)
        /\ schedulerIdRef (refs w') = schedulerIdRef (refs w))
    /\ (isAccurate cl s w = true ->
        (250 < stableTime s - streakStart s w)%Q ->
        awaitingFirstCorrectRef (refs w') = false
        /\ (isTransportRunning cl = false ->
            the_cursor w <> None ->
            isTransportRunningRef (refs w') = true
            /\ schedulerIdRef (refs w')
               = Some (armStep cl (stableTime s)))).
Proof.
  eexists. split; [reflexivity|].
  unfold tick.
  set (w1 := if isTransportRunningRef (refs w) then _ else w).
  assert (F1 :
    stableForMsRef (refs w1) = stableForMsRef (refs w)
    /\ awaitingFirstCorrectRef (refs w1) = awaitingFirstCorrectRef (refs w)
    /\ isTransportRunningRef (refs w1) = isTransportRunningRef (refs w)
    /\ schedulerIdRef (refs w1) = schedulerIdRef (refs w)
    /\ osmdRef w1 = osmdRef w).
  { unfold w1. split_ifs; simpl_world; repeat split; congruence. }
  clearbody w1.
  set (w2 := match effectiveMidi cl w with Some _ => _ | None => w1 end).
  assert (F2 :
    stableForMsRef (refs w2) = stableForMsRef (refs w)
    /\ awaitingFirstCorrectRef (refs w2) = awaitingFirstCorrectRef (refs w)
    /\ isTransportRunningRef (refs w2) = isTransportRunningRef (refs w)
    /\ schedulerIdRef (refs w2) = schedulerIdRef (refs w)
    /\ osmdRef w2 = osmdRef w).
  { unfold w2. destruct (effectiveMidi cl w); [|exact F1].
    split_ifs; simpl_world; exact F1. }
  clearbody w2. clear F1 w1.
  destruct F2 as (Fs & Fa & Fr & Ft & Fo).
  split; [|split].
  - intros Hacc. rewrite Hacc. simpl_world. auto.
  - intros Hacc Hle. rewrite Hacc. rewrite Fs. unfold streakStart in *.
    pose proof (isAccurate_awaiting _ _ _ Hacc) as Haw.
    destruct (Qeq_bool (stableForMsRef (refs w)) 0) eqn:E; simpl_world.
    + apply Qlt_bool_false in Hle. rewrite Hle. simpl_world.
      rewrite Fa, Fr, Ft. auto.
    + rewrite Fs. apply Qlt_bool_false in Hle. rewrite Hle.
      rewrite Fs, Fa, Fr, Ft. auto.
  - intros Hacc Hlt. rewrite Hacc.
    set (w3 := if Qeq_bool (stableForMsRef (refs w2)) 0 then _ else w2).
    assert (F3 : stableForMsRef (refs w3) = streakStart s w
                 /\ osmdRef w3 = osmdRef w).
    { unfold w3, streakStart. rewrite Fs.
      destruct (Qeq_bool (stableForMsRef (refs w)) 0); simpl_world; auto. }
    clearbody w3. destruct F3 as (F3s & F3o).
    rewrite F3s. apply Qlt_bool_iff in Hlt. rewrite Hlt.
    set (w4 := match the_cursor _ with Some _ => _ | None => _ end).
    assert (F4 : awaitingFirstCorrectRef (refs w4) = false
                 /\ (the_cursor w <> None -> the_cursor w4 <> None)).
    { unfold w4, the_cursor. simpl_world. rewrite F3o.
      destruct (osmdRef w) as [o|] eqn:Eo; simpl_world; [|auto].
      destruct (cursor o) as [c|]; simpl_world; [|auto].
      rewrite F3o, ?Eo. simpl_world.
      split; [reflexivity|]. intros _. discriminate. }
    clearbody w4. destruct F4 as (F4a & F4c).
    split.
    + rewrite startTransport_awaiting. exact F4a.
    + intros Hrun Hcur. apply startTransport_runs; auto.
Qed.

(** ** Jump to measure *)

Lemma scanToMeasure_advances (guard : nat) (m : Z) (firstTs : option Q) :
  forall c : C, exists k : nat,
    (k <= guard)%nat /\ scanToMeasure guard m firstTs c = Nat.iter k next c.
Proof.
  induction guard as [|guard IH]; intros c.
  - exists 0%nat. split; [lia|reflexivity].
  - cbn [scanToMeasure].
    destruct (measureIndexOr0 c + 1 >? m);
      [exists 0%nat; split; [lia|reflexivity]|].
    destruct (_ && _); [exists 0%nat; split; [lia|reflexivity]|].
    destruct (IH (next c)) as (k & Hk & Heq).
    exists (S k). split; [lia|].
    rewrite Heq. symmetry. apply Nat.iter_succ_r.
Qed.

Lemma scanToNote_advances (tries : nat) (m : Z) :
  forall c : C, exists k : nat,
    (k <= tries)%nat /\ scanToNote tries m c = Nat.iter k next c.
Proof.
  induction tries as [|tries IH]; intros c.
  - exists 0%nat. split; [lia|reflexivity].
  - cbn [scanToNote].
    destruct (negb _); [exists 0%nat; split; [lia|reflexivity]|].
    destruct (has_notes c); [exists 0%nat; split; [lia|reflexivity]|].
    destruct (IH (next c)) as (k & Hk & Heq).
    exists (S k). split; [lia|].
    rewrite Heq. symmetry. apply Nat.iter_succ_r.
Qed.

Lemma scanToMeasure_stays (guard : nat) (m : Z) (firstTs : option Q)
    (c : C) :
  (0 < guard)%nat ->
  measureIndexOr0 c + 1 = m ->
  firstTs = None
  \/ (exists f t : Q,
        firstTs = Some f /\ currentTimeStamp c = Some t /\ (f <= t)%Q) ->
  scanToMeasure guard m firstTs c = c.
Proof.
  intros Hg Hm Hts. destruct guard as [|guard]; [lia|].
  cbn [scanToMeasure]. rewrite Hm.
  replace (m >? m) with false
    by (symmetry; rewrite Z.gtb_ltb; apply Z.ltb_irrefl).
  rewrite Z.eqb_refl.
  destruct Hts as [-> | (f & t & -> & -> & Hle)]; [reflexivity|].
  apply Qle_bool_iff in Hle. rewrite Hle. reflexivity.
Qed.

Lemma scanToNote_stays (tries : nat) (m : Z) (c : C) :
  (0 < tries)%nat ->
  has_notes c = true ->
  scanToNote tries m c = c.
Proof.
  intros Ht Hn. destruct tries as [|tries]; [lia|].
  cbn [scanToNote]. rewrite Hn. destruct (negb _); reflexivity.
Qed.

(** C9, as amended. [jumpToMeasure] writes no ref: the sequence index
    [currentStepIndexRef] keeps the value it had, for measure 1 as for any
    other.  What it moves is the notation cursor: reset, then advanced by
    [next] at most 4096 + 256 times; for measure 1, when the reset cursor is
    in the first measure with notes under it, at or past the measure's first
    timestamp with notes (if the sheet names one), it stays at the reset
    position. *)
Theorem jumpToMeasure_keeps_sequence_index (cl : Hooks) (w : World C) :
  refs (jumpToMeasure cl w) = refs w
  /\ currentStepIndexRef (refs (jumpToMeasure cl w))
     = currentStepIndexRef (refs w)
  /\ forall (osmd : Osmd C) (c : C),
       osmdRef w = Some osmd ->
       cursor osmd = Some c ->
       the_cursor (jumpToMeasure cl w)
       = Some (jumpedCursor (measureNumber cl) osmd c)
       /\ (exists k : nat,
             (k <= 4096 + 256)%nat
             /\ jumpedCursor (measureNumber cl) osmd c
                = Nat.iter k next (reset c))
       /\ (measureNumber cl = 1 ->
           measureIndexOr0 (reset c) = 0 ->
           has_notes (reset c) = true ->
           getFirstNoteTimestampForMeasure osmd 1 = None
           \/ (exists f t : Q,
                 getFirstNoteTimestampForMeasure osmd 1 = Some f
                 /\ currentTimeStamp (reset c) = Some t
                 /\ (f <= t)%Q) ->
           jumpedCursor (measureNumber cl) osmd c = reset c).
Proof.
  assert (Hrefs : refs (jumpToMeasure cl w) = refs w).
  { unfold jumpToMeasure.
    destruct (osmdRef w) as [osmd|]; [|reflexivity].
    destruct (cursor osmd) as [c|]; [|reflexivity].
    cbv zeta.
    destruct (match selectPrimaryNoteFromArray _ with
              | Some _ => _
              | None => _
              end); reflexivity. }
  split; [exact Hrefs|]. split; [rewrite Hrefs; reflexivity|].
  intros osmd c Ho Hc. split; [|split].
  - unfold jumpToMeasure, jumpedCursor, the_cursor. rewrite Ho, Hc. cbv zeta.
    destruct (match selectPrimaryNoteFromArray _ with
              | Some _ => _
              | None => _
              end); simpl_world; rewrite Ho; reflexivity.
  - unfold jumpedCursor.
    destruct (scanToMeasure_advances 4096 (measureNumber cl)
                (getFirstNoteTimestampForMeasure osmd (measureNumber cl))
                (reset c)) as (k1 & Hk1 & E1).
    rewrite E1.
    destruct (scanToNote_advances 256 (measureNumber cl)
                (Nat.iter k1 next (reset c))) as (k2 & Hk2 & E2).
    rewrite E2, <- Nat.iter_add.
    exists (k2 + k1)%nat. split; [lia|reflexivity].
  - intros Hm H0 Hn Hts. unfold jumpedCursor. rewrite Hm.
    rewrite scanToMeasure_stays;
      [apply scanToNote_stays; [lia|exact Hn] | lia | rewrite H0; reflexivity
      | exact Hts].
Qed.

End Transport.

(** ** Concrete runs *)

(** The marks of the run [playedThrough]: nothing was played. *)
Example playedThrough_marks :
  noteMarksRef (refs playedThrough) = [missed; missed; missed]
  /\ isTransportRunningRef (refs playedThrough) = false
  /\ schedulerIdRef (refs playedThrough) = None.
Proof. repeat split. Qed.

Lemma step_classification_witness :
  the_cursor threeNotesRunning = Some threeNotesCursor
  /\ endReached threeNotesCursor = false
  /\ cursorElement threeNotesRunning = true
  /\ exists kind : Kind,
       noteMarksRef (refs (step (hooks loaded) 1000 threeNotesRunning))
       = noteMarksRef (refs threeNotesRunning) ++ [kind]
       /\ (kind = correct <->
           windowHadAccurateRef (refs threeNotesRunning) = true)
       /\ (kind = incorrect <->
           windowHadAccurateRef (refs threeNotesRunning) = false
           /\ windowHadAnyPitchRef (refs threeNotesRunning) = true)
       /\ (kind = missed <->
           windowHadAccurateRef (refs threeNotesRunning) = false
           /\ windowHadAnyPitchRef (refs threeNotesRunning) = false).
Proof.
  split; [reflexivity|]. split; [reflexivity|]. split; [reflexivity|].
  apply (step_classification (hooks loaded) 1000 threeNotesRunning
           threeNotesCursor); reflexivity.
Defined.

(** Two wrong beats at tempo 80: the second one slows the tempo to 72. *)
Example two_wrong_beats_slow_down :
  JS.same
    (currentBpm
       (hooks
          (updateDynamicTempo (hooks dynamicAt80) false 2000
             (updateDynamicTempo (hooks dynamicAt80) false 1000 dynamicAt80))))
    (JS.ofZ 72).
Proof. reflexivity. Qed.

(** Within one run every [step] is the callback armed at the start, with the
    tempo it captured then (80): a third wrong beat in the same run sets 72
    again. *)
Example third_wrong_beat_in_one_run :
  consecutiveErrorsRef
    (refs
       (step (hooks dynamicAt80) 2250
          (step (hooks dynamicAt80) 1500
             (step (hooks dynamicAt80) 750
                (startTransport (hooks dynamicAt80) 0 dynamicAt80)))))
  = 3
  /\ JS.same
       (currentBpm
          (hooks
             (step (hooks dynamicAt80) 2250
                (step (hooks dynamicAt80) 1500
                   (step (hooks dynamicAt80) 750
                      (startTransport (hooks dynamicAt80) 0 dynamicAt80))))))
       (JS.ofZ 72).
Proof. split; reflexivity. Qed.








(** C8, as stated, fails: A4 is heard, on pitch, at 1000 ms and again at
    1250 ms.  The run of accurate samples has lasted 250 ms, and the gate
    still waits: no transport, no timer.  One millisecond later it opens. *)
Lemma start_gate_waits_at_250ms :
  isAccurate (hooks loaded) (onPitchAt 1000) loaded = true
  /\ isAccurate (hooks loaded) (onPitchAt 1250) heard1000 = true
  /\ stableForMsRef (refs heard1000) = 1000%Q
  /\ (250 <= 1250 - stableForMsRef (refs heard1000))%Q
  /\ awaitingFirstCorrectRef (refs heard1250) = true
  /\ isTransportRunningRef (refs heard1250) = false
  /\ schedulerIdRef (refs heard1250) = None
  /\ isTransportRunningRef (refs heard1251) = true.
Proof.
  repeat split; try reflexivity.
  vm_compute. discriminate.
Qed.

(** C9, as stated, fails: after the transport has played the three notes
    through, the sequence index is 2; "jump to measure 1" puts the notation
    cursor back on the first note and shows A4 as the target, and leaves the
    sequence index at 2, where the sequence still points at C#5. *)
Lemma jumpToMeasure_leaves_sequence_index :
  measureNumber (hooks playedThrough) = 1
  /\ isTransportRunningRef (refs playedThrough) = false
  /\ currentStepIndexRef (refs playedThrough) = 2%nat
  /\ currentStepIndexRef (refs jumpedBack) = 2%nat
  /\ currentStepIndexRef (refs jumpedBack) <> 0%nat
  /\ option_map place (the_cursor jumpedBack) = Some 0%nat
  /\ targetInfo (hooks jumpedBack) = Some 69
  /\ option_map midi (midiSeqTarget jumpedBack) = Some 73.
Proof.
  repeat split; try reflexivity. vm_compute. discriminate.
Qed.

(** * Further properties of the code *)

(** ** The grading threshold: range and monotonicity *)

(** The threshold of an element is its base plus adjustments that are never
    negative. *)
Lemma threshold_adjustments_nonneg (e : MusicalElement) :
  20 <= ThresholdSpec.base e <= 35
  /\ 0 <= ThresholdSpec.accidental_adj e <= 5
  /\ 0 <= ThresholdSpec.position_adj e
  /\ 0 <= ThresholdSpec.string_adj e <= 3
  /\ 0 <= ThresholdSpec.articulation_adj e <= 2.
Proof.
  unfold ThresholdSpec.base, ThresholdSpec.accidental_adj,
    ThresholdSpec.position_adj, ThresholdSpec.string_adj,
    ThresholdSpec.articulation_adj.
  repeat split;
    repeat match goal with
           | |- context [if ?b then _ else _] => destruct b
           | |- context [match ?x with _ => _ end] => destruct x
           end; lia.
Qed.

(** The code and the formula, for an element that is there. *)
Lemma getGradingThreshold_unfold (e : MusicalElement) :
  getGradingThreshold (Some e) = ThresholdSpec.threshold e.
Proof.
  unfold getGradingThreshold, ThresholdSpec.threshold, ThresholdSpec.base,
    ThresholdSpec.accidental_adj, ThresholdSpec.position_adj,
    ThresholdSpec.string_adj, ThresholdSpec.articulation_adj,
    ThresholdSpec.octave, correctDuringTransportCents.
  rewrite !attr_is_dec.
  destruct e as [m acc dyn art pos str].
  cbn [midi accidental position string_ articulation].
  set (o := m / 12 - 1).
  rewrite !Z.geb_leb.
  destruct (Z.leb_spec 6 o), (Z.leb_spec 5 o), (Z.leb_spec o 3),
    (Z_ge_dec o 6), (Z_ge_dec o 5), (Z_le_dec o 3); try lia;
  (destruct acc as [[|a|a]|]; cbn [Z.eqb negb]);
  (destruct pos as [p|];
   [destruct (Z_gt_dec p 1);
    [replace (p =? 0) with false by (symmetry; apply Z.eqb_neq; lia);
     replace (p >? 1) with true
       by (symmetry; rewrite Z.gtb_ltb; apply Z.ltb_lt; lia)
    |replace (p >? 1) with false
       by (symmetry; rewrite Z.gtb_ltb; apply Z.ltb_ge; lia);
     rewrite andb_false_r]
   |]);
  cbn [negb andb];
  (destruct str as [s|]; [destruct (string_dec s "E")|]);
  (destruct art as [a'|]; [destruct (string_dec a' "staccato")|]);
  f_equal; lia.
Qed.

(** X1. Whatever the element, and without one, the threshold is at least
    20 and at most 50 cents. *)
Theorem getGradingThreshold_bounds (element : option MusicalElement) :
  20 <= getGradingThreshold element <= 50.
Proof.
  destruct element as [e|]; [|cbv; split; discriminate].
  rewrite getGradingThreshold_unfold. unfold ThresholdSpec.threshold.
  pose proof (threshold_adjustments_nonneg e). lia.
Qed.

(** X2. Of two elements with the same pitch, accidental, articulation and
    string, the one in the higher position is graded at least as
    leniently. *)
Theorem getGradingThreshold_position_monotone (e e' : MusicalElement)
    (p p' : Z) :
  samePitchAndMarks e e' ->
  position e = Some p ->
  position e' = Some p' ->
  p <= p' ->
  getGradingThreshold (Some e) <= getGradingThreshold (Some e').
Proof.
  intros (Hm & Ha & Hr & Hs) Hp Hp' Hle.
  rewrite !getGradingThreshold_unfold.
  unfold ThresholdSpec.threshold, ThresholdSpec.base, ThresholdSpec.octave,
    ThresholdSpec.accidental_adj, ThresholdSpec.position_adj,
    ThresholdSpec.string_adj, ThresholdSpec.articulation_adj.
  rewrite Hm, Ha, Hr, Hs, Hp, Hp'.
  apply Z.min_le_compat_l.
  destruct (Z_gt_dec p 1), (Z_gt_dec p' 1); lia.
Qed.

(** A4 in first and in third position: 25 and 31 cents. *)
Lemma getGradingThreshold_position_monotone_witness :
  samePitchAndMarks (a4InPosition 1) (a4InPosition 3)
  /\ getGradingThreshold (Some (a4InPosition 1))
     <= getGradingThreshold (Some (a4InPosition 3)).
Proof.
  assert (H : samePitchAndMarks (a4InPosition 1) (a4InPosition 3))
    by (repeat split).
  split; [exact H|].
  apply (getGradingThreshold_position_monotone
           (a4InPosition 1) (a4InPosition 3) 1 3 H);
    [reflexivity|reflexivity|lia].
Defined.

(** ** Cents: the window and octaves *)

Section MoreExact.
Local Open Scope Q_scope.

Lemma normalizeCents_in_window (x : Q) (fuel : nat) :
  -600 < x -> x <= 600 -> normalizeCents fuel x = Some x.
Proof.
  intros Hlo Hhi. unfold normalizeCents, normalizeCents_gen.
  assert (Ha : while_above Q 600 1200 (fun a b => JS.Qlt_bool b a) Qminus
                 fuel x = Some x).
  { destruct fuel; cbn [while_above];
      apply Qlt_bool_false in Hhi; rewrite Hhi; reflexivity. }
  rewrite Ha.
  destruct fuel; cbn [while_below];
    apply Qle_bool_false in Hlo; rewrite Hlo; reflexivity.
Qed.

(** X3. A value already in the window (-600, 600] is returned as it is,
    at once (under any bound on the rounds). *)
Theorem normalizeCents_fixed_in_window (x : Q) (fuel : nat) :
  -600 < x -> x <= 600 -> normalizeCents fuel x = Some x.
Proof. apply normalizeCents_in_window. Qed.

Lemma normalizeCents_fixed_in_window_witness :
  -600 < 600 /\ 600 <= 600 /\ normalizeCents 0 600 = Some 600.
Proof.
  assert (H1 : -600 < 600) by reflexivity.
  assert (H2 : 600 <= 600) by discriminate.
  split; [exact H1|]. split; [exact H2|].
  apply (normalizeCents_fixed_in_window 600 0 H1 H2).
Defined.

(** Whatever a loop returns, under any bound, is past its test and a
    multiple of 1200 away. *)
Lemma while_above_sound (fuel : nat) :
  forall n v : Q,
    while_above Q 600 1200 (fun a b => JS.Qlt_bool b a) Qminus fuel n = Some v ->
    v <= 600 /\ (-600 < n -> -600 < v) /\ (n <= 600 -> v = n)
    /\ exists k : Z, v == n + 1200 * inject_Z k.
Proof.
  induction fuel as [|fuel IH]; intros n v; cbn [while_above];
    destruct (JS.Qlt_bool 600 n) eqn:E; try discriminate.
  - intros [= <-]. apply Qlt_bool_false in E.
    repeat split; try tauto. exists 0%Z. change (inject_Z 0) with 0. lra.
  - intros Hv. apply Qlt_bool_iff in E.
    destruct (IH _ _ Hv) as (Hhi & Hlo & _ & k & Hk).
    repeat split; [exact Hhi| intros _; apply Hlo; lra | intros; lra |].
    exists (k - 1)%Z. unfold Z.sub. rewrite inject_Z_plus.
    change (inject_Z (- (1))) with (-1). lra.
  - intros [= <-]. apply Qlt_bool_false in E.
    repeat split; try tauto. exists 0%Z. change (inject_Z 0) with 0. lra.
Qed.

Lemma while_below_sound (fuel : nat) :
  forall n v : Q,
    while_below Q (-600) 1200 Qle_bool Qplus fuel n = Some v ->
    -600 < v /\ (n <= 600 -> v <= 600)
    /\ exists k : Z, v == n + 1200 * inject_Z k.
Proof.
  induction fuel as [|fuel IH]; intros n v; cbn [while_below];
    destruct (Qle_bool n (-600)) eqn:E; try discriminate.
  - intros [= <-]. apply Qle_bool_false in E.
    repeat split; try tauto. exists 0%Z. change (inject_Z 0) with 0. lra.
  - intros Hv. apply Qle_bool_iff in E.
    destruct (IH _ _ Hv) as (Hlo & Hhi & k & Hk).
    repeat split; [exact Hlo| intros _; apply Hhi; lra |].
    exists (k + 1)%Z. rewrite inject_Z_plus. change (inject_Z 1) with 1. lra.
  - intros [= <-]. apply Qle_bool_false in E.
    repeat split; try tauto. exists 0%Z. change (inject_Z 0) with 0. lra.
Qed.

Lemma normalizeCents_sound (fuel : nat) (x v : Q) :
  normalizeCents fuel x = Some v ->
  -600 < v /\ v <= 600 /\ exists k : Z, v == x + 1200 * inject_Z k.
Proof.
  unfold normalizeCents, normalizeCents_gen.
  destruct (while_above Q 600 1200 _ Qminus fuel x) as [u|] eqn:Hu;
    [|discriminate].
  intros Hv.
  destruct (while_above_sound _ _ _ Hu) as (Hu600 & _ & _ & ku & Hku).
  destruct (while_below_sound _ _ _ Hv) as (Hlo & Hhi & kv & Hkv).
  repeat split; [exact Hlo|exact (Hhi Hu600)|].
  exists (ku + kv)%Z. rewrite inject_Z_plus. lra.
Qed.

(** Two values of the window (-600, 600] that differ by a multiple of 1200
    are equal. *)
Lemma window_unique (v v' : Q) (k : Z) :
  -600 < v -> v <= 600 -> -600 < v' -> v' <= 600 ->
  v' == v + 1200 * inject_Z k -> v' == v.
Proof.
  intros H1 H2 H3 H4 Hk.
  assert (Hk0 : k = 0%Z).
  { assert (Hlt : -1 < inject_Z k) by lra.
    assert (Hgt : inject_Z k < 1) by lra.
    change (-1) with (inject_Z (-1)) in Hlt.
    change 1 with (inject_Z 1) in Hgt.
    rewrite <- Zlt_Qlt in Hlt, Hgt. lia. }
  subst k. change (inject_Z 0) with 0 in Hk. lra.
Qed.

(** X4. Offsets that differ by whole octaves (multiples of 1200 cents)
    normalise to the same value. *)
Theorem normalizeCents_octave_invariant (x : Q) (k : Z) (fuel fuel' : nat)
    (v v' : Q) :
  normalizeCents fuel x = Some v ->
  normalizeCents fuel' (x + 1200 * inject_Z k) = Some v' ->
  v' == v.
Proof.
  intros Hv Hv'.
  destruct (normalizeCents_sound _ _ _ Hv) as (H1 & H2 & j & Hj).
  destruct (normalizeCents_sound _ _ _ Hv') as (H3 & H4 & j' & Hj').
  apply (window_unique v v' (k + j' - j)); try assumption.
  unfold Z.sub. rewrite !inject_Z_plus, inject_Z_opp. lra.
Qed.

(** 30 cents sharp, and the same three octaves higher. *)
Lemma normalizeCents_octave_invariant_witness :
  normalizeCents 4 30 = Some 30
  /\ normalizeCents 4 (30 + 1200 * inject_Z 3)
     = Some (30 + 1200 * inject_Z 3 - 1200 - 1200 - 1200)
  /\ 30 + 1200 * inject_Z 3 - 1200 - 1200 - 1200 == 30.
Proof.
  assert (H1 : normalizeCents 4 30 = Some 30) by reflexivity.
  assert (H2 : normalizeCents 4 (30 + 1200 * inject_Z 3)
               = Some (30 + 1200 * inject_Z 3 - 1200 - 1200 - 1200))
    by reflexivity.
  split; [exact H1|]. split; [exact H2|].
  apply (normalizeCents_octave_invariant 30 3 4 4 _ _ H1 H2).
Defined.

(** Normalising twice is normalising once. *)
Lemma normalizeCents_idempotent (x v : Q) (fuel fuel' : nat) :
  normalizeCents fuel x = Some v -> normalizeCents fuel' v = Some v.
Proof.
  intros Hv. destruct (normalizeCents_sound _ _ _ Hv) as (H1 & H2 & _).
  apply normalizeCents_in_window; assumption.
Qed.

End MoreExact.

(** ** The tempo: sanitising and the controller's range *)

(** X5. A sanitised tempo is left as it is by sanitising it again. *)
Theorem sanitizeBpm_idempotent (raw : JS.number) :
  sanitizeBpm (sanitizeBpm raw) = sanitizeBpm raw.
Proof.
  destruct (sanitizeBpm_range raw) as (b & Hb & Hr & _ & _).
  rewrite Hb. unfold JS.ofZ. rewrite sanitizeBpm_finite.
  rewrite Qfloor_Z. unfold JS.ofZ. f_equal. f_equal. lia.
Qed.

(** X6. A larger tempo never sanitises to a smaller one. *)
Theorem sanitizeBpm_monotone (q q' : Q) :
  (q <= q')%Q ->
  exists b b' : Z,
    sanitizeBpm (JS.Finite q) = JS.ofZ b
    /\ sanitizeBpm (JS.Finite q') = JS.ofZ b'
    /\ b <= b'.
Proof.
  intros Hle. exists (Z.min 240 (Z.max 20 (Qfloor q))),
    (Z.min 240 (Z.max 20 (Qfloor q'))).
  rewrite !sanitizeBpm_finite. repeat split.
  pose proof (Qfloor_resp_le _ _ Hle). lia.
Qed.

Lemma sanitizeBpm_monotone_witness :
  (59.5 <= 300)%Q
  /\ exists b b' : Z,
       sanitizeBpm (JS.Finite 59.5) = JS.ofZ b
       /\ sanitizeBpm (JS.Finite 300) = JS.ofZ b'
       /\ b <= b'.
Proof.
  assert (H : (59.5 <= 300)%Q) by discriminate.
  split; [exact H|]. apply (sanitizeBpm_monotone 59.5 300 H).
Defined.

Lemma JSmax_finite (a b : Q) :
  exists m : Q, JS.max (JS.Finite a) (JS.Finite b) = JS.Finite m
    /\ (a <= m)%Q /\ (b <= m)%Q /\ (m = a \/ m = b).
Proof.
  unfold JS.max, JS.lt. destruct (JS.Qlt_bool a b) eqn:E.
  - apply Qlt_bool_iff in E. exists b. repeat split; auto; lra.
  - apply Qlt_bool_false in E. exists a. repeat split; auto; lra.
Qed.

Lemma JSmin_finite (a b : Q) :
  exists m : Q, JS.min (JS.Finite a) (JS.Finite b) = JS.Finite m
    /\ (m <= a)%Q /\ (m <= b)%Q /\ (m = a \/ m = b).
Proof.
  unfold JS.min, JS.lt. destruct (JS.Qlt_bool b a) eqn:E.
  - apply Qlt_bool_iff in E. exists b. repeat split; auto; lra.
  - apply Qlt_bool_false in E. exists a. repeat split; auto; lra.
Qed.

Section Tempo.

Context {C : Type} {NC : NotationCursor C}.

(** The tempo [updateDynamicTempo] leaves: the one it found, or one of the
    two it computes from the captured values. *)
Lemma updateDynamicTempo_tempo cl a now (w : World C) :
  currentBpm (hooks (updateDynamicTempo cl a now w)) = currentBpm (hooks w)
  \/ (a = false
      /\ currentBpm (hooks (updateDynamicTempo cl a now w)) = slowedTempo cl)
  \/ (a = true
      /\ currentBpm (hooks (updateDynamicTempo cl a now w))
         = recoveredTempo cl).
Proof.
  unfold updateDynamicTempo, slowedTempo, recoveredTempo.
  destruct (dynamicTempoEnabled cl); cbn [negb]; [|left; reflexivity].
  destruct a; cbn [negb]; split_ifs; simpl_world; auto.
Qed.

(** X7. A callback that reads the current tempo keeps it between 40 and
    the base tempo: from a tempo in that range, whatever the beat was, the
    tempo after [updateDynamicTempo] is in that range. *)
Theorem updateDynamicTempo_keeps_range (cl : Hooks) (wasAccurate : bool)
    (now : Q) (w : World C) (base c : Q) :
  bpm cl = JS.Finite base ->
  currentBpm cl = JS.Finite c ->
  currentBpm (hooks w) = JS.Finite c ->
  (40 <= c)%Q -> (c <= base)%Q ->
  exists c' : Q,
    currentBpm (hooks (updateDynamicTempo cl wasAccurate now w)) = JS.Finite c'
    /\ (40 <= c')%Q /\ (c' <= base)%Q.
Proof.
  intros Hb Hc Hw Hlo Hhi.
  destruct (updateDynamicTempo_tempo cl wasAccurate now w)
    as [-> | [(_ & ->) | (_ & ->)]].
  - exists c. auto.
  - unfold slowedTempo. rewrite Hc. unfold JS.sub, JS.neg, JS.add, JS.ofZ.
    destruct (JSmax_finite (inject_Z 40) (c + - inject_Z 8))
      as (m & -> & H1 & H2 & [-> | ->]).
    + exists (inject_Z 40). change (inject_Z 40) with 40%Q. repeat split; lra.
    + exists (c + - inject_Z 8)%Q. change (inject_Z 40) with 40%Q in *.
      change (inject_Z 8) with 8%Q in *. repeat split; lra.
  - unfold recoveredTempo. rewrite Hb, Hc. unfold JS.add, JS.ofZ.
    destruct (JSmin_finite base (c + inject_Z 2))
      as (m & -> & H1 & H2 & [-> | ->]).
    + exists base. repeat split; lra.
    + exists (c + inject_Z 2)%Q. change (inject_Z 2) with 2%Q in *.
      repeat split; lra.
Qed.



End Tempo.

(** The controller at tempo 80 of base tempo 80, after a wrong beat that
    is the second in a row. *)
Lemma updateDynamicTempo_keeps_range_witness :
  exists c' : Q,
    currentBpm
      (hooks (updateDynamicTempo (hooks dynamicAt80) false 1000 dynamicAt80))
    = JS.Finite c'
    /\ (40 <= c')%Q /\ (c' <= 80)%Q.
Proof.
  apply (updateDynamicTempo_keeps_range (hooks dynamicAt80) false 1000
           dynamicAt80 80 80);
    [reflexivity|reflexivity|reflexivity|discriminate|discriminate].
Defined.
Section RunProperties.

Context {C : Type} {NC : NotationCursor C}.

Lemma keeps_sequence_refl (w : World C) : keeps_sequence w w.
Proof. constructor; reflexivity. Qed.

Lemma keeps_sequence_trans (a b c : World C) :
  keeps_sequence a b -> keeps_sequence b c -> keeps_sequence a c.
Proof.
  intros [] []. constructor; congruence.
Qed.

Lemma startTransport_keeps_sequence cl now (w : World C) :
  keeps_sequence w (startTransport cl now w).
Proof.
  unfold startTransport.
  destruct (isTransportRunning cl); [apply keeps_sequence_refl|].
  destruct (the_cursor w); [|apply keeps_sequence_refl].
  destruct (dynamicTempoEnabled cl); constructor; reflexivity.
Qed.

Lemma stopTransport_keeps_sequence (w : World C) :
  keeps_sequence w (stopTransport w).
Proof. constructor; reflexivity. Qed.

Lemma tick_keeps_sequence cl s (w : World C) :
  keeps_sequence w (tick cl s w).
Proof.
  unfold tick.
  set (w1 := if isTransportRunningRef (refs w) then _ else w).
  assert (K1 : keeps_sequence w w1).
  { unfold w1. split_ifs; constructor; reflexivity. }
  clearbody w1.
  set (w2 := match effectiveMidi cl w with Some _ => _ | None => w1 end).
  assert (K2 : keeps_sequence w w2).
  { unfold w2. destruct (effectiveMidi cl w); [|exact K1].
    split_ifs; [|exact K1].
    destruct K1. constructor; assumption. }
  clearbody w2. clear K1 w1.
  destruct (isAccurate cl s w).
  - set (w3 := if Qeq_bool (stableForMsRef (refs w2)) 0 then _ else w2).
    assert (K3 : keeps_sequence w w3).
    { unfold w3. destruct (Qeq_bool _ _); [|exact K2].
      destruct K2. constructor; assumption. }
    clearbody w3. clear K2 w2.
    destruct (JS.Qlt_bool _ _); [|exact K3].
    eapply keeps_sequence_trans; [|apply startTransport_keeps_sequence].
    destruct K3.
    destruct (the_cursor _); constructor; assumption.
  - destruct K2. constructor; assumption.
Qed.

Lemma jumpToMeasure_keeps_sequence cl (w : World C) :
  keeps_sequence w (jumpToMeasure cl w).
Proof.
  unfold jumpToMeasure.
  destruct (osmdRef w) as [osmd|]; [|apply keeps_sequence_refl].
  destruct (cursor osmd) as [c|]; [|constructor; reflexivity].
  cbv zeta.
  destruct (match selectPrimaryNoteFromArray _ with
            | Some _ => _
            | None => _
            end); constructor; reflexivity.
Qed.

Lemma resetStartPoint_keeps_sequence (w : World C) :
  keeps_sequence w (resetStartPoint w).
Proof.
  unfold resetStartPoint. cbv zeta.
  destruct (the_cursor _); [|constructor; reflexivity].
  destruct (scoreMidiSequenceRef _); constructor; reflexivity.
Qed.

(** What one beat does to the sequence index and the marks. *)
Lemma markBeat_length cl now (w : World C) :
  exists added : list Kind,
    noteMarksRef (refs (markBeat cl now w)) = noteMarksRef (refs w) ++ added
    /\ (List.length added <= 1)%nat.
Proof.
  rewrite markBeat_marks. destruct (cursorElement w).
  - eexists. split; [reflexivity|]. simpl. lia.
  - exists []. rewrite app_nil_r. split; [reflexivity|]. simpl. lia.
Qed.

Lemma step_sequence cl now (w : World C) :
  scoreMidiSequenceRef (refs (step cl now w)) = scoreMidiSequenceRef (refs w)
  /\ (currentStepIndexRef (refs (step cl now w))
      = currentStepIndexRef (refs w)
      \/ (currentStepIndexRef (refs (step cl now w))
          = S (currentStepIndexRef (refs w))
          /\ (S (currentStepIndexRef (refs w))
              < List.length (scoreMidiSequenceRef (refs w)))%nat))
  /\ exists added : list Kind,
       noteMarksRef (refs (step cl now w)) = noteMarksRef (refs w) ++ added
       /\ (List.length added <= 1)%nat.
Proof.
  unfold step.
  destruct (the_cursor w) as [c|].
  2:{ split; [reflexivity|]. split; [left; reflexivity|].
      exists []. rewrite app_nil_r. split; [reflexivity|simpl; lia]. }
  destruct (endReached c).
  { split; [reflexivity|]. split; [left; reflexivity|].
    exists []. rewrite app_nil_r. split; [reflexivity|simpl; lia]. }
  pose proof (markBeat_frame cl now w) as F.
  pose proof (markBeat_length cl now w) as M.
  set (w1 := markBeat cl now w) in *. clearbody w1.
  pose proof (bf_index _ _ F) as Fi. pose proof (bf_seq _ _ F) as Fs.
  unfold stopTransport.
  destruct (0 <? List.length (scoreMidiSequenceRef (refs w)))%nat.
  - simpl_world. rewrite Fi.
    destruct (Nat.ltb_spec (currentStepIndexRef (refs w) + 1)
                (List.length (scoreMidiSequenceRef (refs w)))) as [Hlt|Hge].
    + destruct (nth_error _ _); simpl_world;
        (split; [assumption|]);
        (split; [right; split; [apply Nat.add_1_r|lia]|exact M]).
    + simpl_world. split; [assumption|]. split; [left; assumption|exact M].
  - simpl_world. split; [assumption|]. split; [left; assumption|exact M].
Qed.


(** ** The grading window *)

Lemma startTransport_window cl now (w : World C) :
  windowHadAnyPitchRef (refs (startTransport cl now w))
  = windowHadAnyPitchRef (refs w)
  /\ windowHadAccurateRef (refs (startTransport cl now w))
     = windowHadAccurateRef (refs w).
Proof.
  unfold startTransport.
  destruct (isTransportRunning cl); [split; reflexivity|].
  destruct (the_cursor w); [|split; reflexivity].
  destruct (dynamicTempoEnabled cl); split; reflexivity.
Qed.

Lemma tick_window (cl : Hooks) (s : Sample) (w : World C) :
  windowHadAnyPitchRef (refs (tick cl s w))
  = windowHadAnyPitchRef (refs w) || heardPitch s w
  /\ windowHadAccurateRef (refs (tick cl s w))
     = windowHadAccurateRef (refs w) || heardAccurate cl s w.
Proof.
  unfold tick, heardAccurate, heardPitch.
  set (w1 := if isTransportRunningRef (refs w) then _ else w).
  assert (K1 :
    windowHadAnyPitchRef (refs w1)
    = windowHadAnyPitchRef (refs w)
      || isTransportRunningRef (refs w) && hasPitch s
    /\ windowHadAccurateRef (refs w1)
       = windowHadAccurateRef (refs w)
         || isTransportRunningRef (refs w) && hasPitch s
            && withinThreshold (rawCentsOf s (effectiveMidi cl w))
                 (getGradingThreshold (midiSeqTarget w))).
  { unfold w1, midiSeqTarget.
    destruct (isTransportRunningRef (refs w)); cbn [andb].
    - destruct (hasPitch s); cbn [andb]; simpl_world.
      + destruct (withinThreshold _ _); simpl_world;
          rewrite ?orb_true_r, ?orb_false_r; split; reflexivity.
      + rewrite !orb_false_r. split; reflexivity.
    - rewrite !orb_false_r. split; reflexivity. }
  clearbody w1.
  set (w2 := match effectiveMidi cl w with Some _ => _ | None => w1 end).
  assert (K2 : refs w2 = refs w1).
  { unfold w2. destruct (effectiveMidi cl w); [|reflexivity].
    split_ifs; reflexivity. }
  clearbody w2.
  destruct K1 as (Ka & Kc). rewrite <- Ka, <- Kc, <- K2. clear Ka Kc K2 w1.
  destruct (isAccurate cl s w).
  - set (w3 := if Qeq_bool (stableForMsRef (refs w2)) 0 then _ else w2).
    assert (K3 : windowHadAnyPitchRef (refs w3) = windowHadAnyPitchRef (refs w2)
                 /\ windowHadAccurateRef (refs w3)
                    = windowHadAccurateRef (refs w2)).
    { unfold w3. destruct (Qeq_bool _ _); split; reflexivity. }
    clearbody w3. destruct K3 as (<- & <-).
    destruct (JS.Qlt_bool _ _); [|split; reflexivity].
    destruct (startTransport_window cl (stableTime s)
                match the_cursor
                        (on_hooks (set_firstNoteMidi None)
                           (on_refs (set_awaitingFirstCorrectRef false)
                              (on_hooks (set_awaitingFirstCorrect false) w3)))
                with
                | Some c =>
                    set_cursor (fst (ensureCursorOnNote c))
                      (on_hooks (set_firstNoteMidi None)
                         (on_refs (set_awaitingFirstCorrectRef false)
                            (on_hooks (set_awaitingFirstCorrect false) w3)))
                | None =>
                    on_hooks (set_firstNoteMidi None)
                      (on_refs (set_awaitingFirstCorrectRef false)
                         (on_hooks (set_awaitingFirstCorrect false) w3))
                end) as (-> & ->).
    destruct (the_cursor _); split; reflexivity.
  - split; reflexivity.
Qed.

(** X9. A sample only ever sets the flags of the grading window: the
    any-pitch flag is set exactly by a sample with a pitch while the
    transport runs, the accurate flag exactly by such a sample within the
    threshold of the element the sequence index points at; the start gate
    does not touch them. *)
Theorem tick_window_flags (cl : Hooks) (s : Sample) (w : World C) :
  windowHadAnyPitchRef (refs (tick cl s w))
  = windowHadAnyPitchRef (refs w) || heardPitch s w
  /\ windowHadAccurateRef (refs (tick cl s w))
     = windowHadAccurateRef (refs w) || heardAccurate cl s w.
Proof. apply tick_window. Qed.

Lemma updateDynamicTempo_window cl a now (w : World C) :
  windowHadAnyPitchRef (refs (updateDynamicTempo cl a now w))
  = windowHadAnyPitchRef (refs w)
  /\ windowHadAccurateRef (refs (updateDynamicTempo cl a now w))
     = windowHadAccurateRef (refs w).
Proof.
  unfold updateDynamicTempo.
  destruct (dynamicTempoEnabled cl), a; cbn [negb]; split_ifs;
    split; reflexivity.
Qed.

Lemma step_window cl now (w : World C) :
  (windowHadAnyPitchRef (refs (step cl now w)) = false
   /\ windowHadAccurateRef (refs (step cl now w)) = false)
  \/ (windowHadAnyPitchRef (refs (step cl now w))
      = windowHadAnyPitchRef (refs w)
      /\ windowHadAccurateRef (refs (step cl now w))
         = windowHadAccurateRef (refs w)).
Proof.
  unfold step.
  destruct (the_cursor w) as [c|]; [|right; split; reflexivity].
  destruct (endReached c); [right; split; reflexivity|].
  left. set (w1 := markBeat cl now w). clearbody w1.
  unfold stopTransport.
  repeat match goal with
         | |- context [if ?b then _ else _] => destruct b
         | |- context [match nth_error ?l ?n with _ => _ end] =>
             destruct (nth_error l n)
         end; simpl_world; split; reflexivity.
Qed.

Lemma applyEvent_windowConsistent (w : World C) (e : Event) :
  windowConsistent w -> windowConsistent (applyEvent w e).
Proof.
  unfold windowConsistent. intros Hw.
  destruct e as [cl s|cl now| |cl|]; cbn [applyEvent].
  - destruct (tick_window cl s w) as (-> & ->).
    unfold heardAccurate.
    destruct (windowHadAccurateRef (refs w)); cbn [orb].
    + rewrite (Hw eq_refl). reflexivity.
    + destruct (heardPitch s w); cbn [andb]; [|discriminate].
      intros _. apply orb_true_r.
  - unfold fire. destruct (schedulerIdRef (refs w)); [|exact Hw].
    destruct (step_window cl now w) as [(-> & ->) | (-> & ->)];
      [discriminate|exact Hw].
  - exact Hw.
  - destruct (jumpToMeasure_keeps_sequence cl w).
    assert (R : refs (jumpToMeasure cl w) = refs w).
    { unfold jumpToMeasure.
      destruct (osmdRef w) as [osmd|]; [|reflexivity].
      destruct (cursor osmd) as [c|]; [|reflexivity].
      cbv zeta.
      destruct (match selectPrimaryNoteFromArray _ with
                | Some _ => _
                | None => _
                end); reflexivity. }
    rewrite R. exact Hw.
  - assert (R : refs (resetStartPoint w) = refs w).
    { unfold resetStartPoint. cbv zeta.
      destruct (the_cursor _); [|reflexivity].
      destruct (scoreMidiSequenceRef _); reflexivity. }
    rewrite R. exact Hw.
Qed.

Lemma run_invariant (P : World C -> Prop) :
  (forall w e, P w -> P (applyEvent w e)) ->
  forall events w, P w -> P (run events w).
Proof.
  intros Hstep events. induction events as [|e events IH]; intros w Hw.
  - exact Hw.
  - cbn [run fold_left]. apply IH. apply Hstep. exact Hw.
Qed.

(** X10. Whatever happens to the component (samples, beats, stops, jumps,
    resets of the start), a window that recorded an accurate pitch recorded
    a pitch: no beat is graded correct on a window without pitch. *)
Theorem run_windowConsistent (events : list Event) (w : World C) :
  windowConsistent w -> windowConsistent (run events w).
Proof. apply run_invariant. apply applyEvent_windowConsistent. Qed.


(** ** Runs *)

Lemma advances_refl (w : World C) : advances 0 w w.
Proof.
  split; try reflexivity; try lia; auto.
  exists []. rewrite app_nil_r. split; [reflexivity|cbn; lia].
Qed.

Lemma advances_trans n m (a b c : World C) :
  advances n a b -> advances m b c -> advances (n + m) a c.
Proof.
  intros [S1 L1 U1 R1 (ad1 & M1 & N1)] [S2 L2 U2 R2 (ad2 & M2 & N2)].
  split.
  - congruence.
  - lia.
  - lia.
  - intros H. rewrite <- S1. apply R2. rewrite S1. apply R1. exact H.
  - exists (ad1 ++ ad2). rewrite M2, M1, app_assoc. split; [reflexivity|].
    rewrite length_app. lia.
Qed.

Lemma keeps_sequence_advances (w w' : World C) :
  keeps_sequence w w' -> advances 0 w w'.
Proof.
  intros [S1 I1 M1 _]. split.
  - exact S1.
  - lia.
  - lia.
  - rewrite I1. auto.
  - exists []. rewrite app_nil_r. split; [exact M1|cbn; lia].
Qed.

Lemma step_advances cl now (w : World C) : advances 1 w (step cl now w).
Proof.
  destruct (step_sequence cl now w) as (S1 & I1 & M1).
  split.
  - exact S1.
  - destruct I1 as [-> | (-> & _)]; lia.
  - destruct I1 as [-> | (-> & _)]; lia.
  - intros H. destruct I1 as [-> | (-> & ?)]; assumption.
  - exact M1.
Qed.

Lemma advances_weaken n m (w w' : World C) :
  (n <= m)%nat -> advances n w w' -> advances m w w'.
Proof.
  intros Hnm [S1 L1 U1 R1 (ad & M1 & N1)]. split; auto; try lia.
  exists ad. split; [exact M1|lia].
Qed.

Lemma applyEvent_advances (w : World C) (e : Event) :
  advances (countFired [e]) w (applyEvent w e).
Proof.
  destruct e as [cl s|cl now| |cl|]; cbn [applyEvent countFired].
  - apply keeps_sequence_advances, tick_keeps_sequence.
  - unfold fire. destruct (schedulerIdRef (refs w)).
    + apply step_advances.
    + apply (advances_weaken 0); [lia|apply advances_refl].
  - apply keeps_sequence_advances, stopTransport_keeps_sequence.
  - apply keeps_sequence_advances, jumpToMeasure_keeps_sequence.
  - apply keeps_sequence_advances, resetStartPoint_keeps_sequence.
Qed.

Lemma countFired_cons e events :
  countFired (e :: events) = (countFired [e] + countFired events)%nat.
Proof. destruct e; reflexivity. Qed.

Lemma run_advances (events : list Event) (w : World C) :
  advances (countFired events) w (run events w).
Proof.
  revert w. induction events as [|e events IH]; intros w.
  - apply advances_refl.
  - rewrite countFired_cons. cbn [run fold_left].
    eapply advances_trans; [apply applyEvent_advances|apply IH].
Qed.

(** X11. The sequence index over any run: the sequence is never written,
    the index never moves back, moves at most one element per fired timer,
    and stays on an element of the sequence. *)
Theorem run_index_in_sequence (events : list Event) (w : World C) :
  (currentStepIndexRef (refs w)
   < List.length (scoreMidiSequenceRef (refs w)))%nat ->
  scoreMidiSequenceRef (refs (run events w)) = scoreMidiSequenceRef (refs w)
  /\ (currentStepIndexRef (refs w)
      <= currentStepIndexRef (refs (run events w))
      <= currentStepIndexRef (refs w) + countFired events)%nat
  /\ midiSeqTarget (run events w) <> None.
Proof.
  intros H. destruct (run_advances events w) as [S1 L1 U1 R1 _].
  split; [exact S1|]. split; [lia|].
  unfold midiSeqTarget. rewrite S1. apply nth_error_Some. apply R1. exact H.
Qed.

(** X12. The marks over any run: marks are only appended, at most one
    per fired timer. *)
Theorem run_marks_append_only (events : list Event) (w : World C) :
  exists added : list Kind,
    noteMarksRef (refs (run events w)) = noteMarksRef (refs w) ++ added
    /\ (List.length added <= countFired events)%nat.
Proof. destruct (run_advances events w) as [_ _ _ _ M]. exact M. Qed.

(** ** The transport and its timer *)

Lemma stopTransport_coherent (w : World C) :
  transportCoherent (stopTransport w).
Proof.
  unfold stopTransport. split; simpl_world; [reflexivity|].
  split; [congruence|discriminate].
Qed.

Lemma coherent_of_refs (w w' : World C) :
  isTransportRunning (hooks w') = isTransportRunning (hooks w) ->
  isTransportRunningRef (refs w') = isTransportRunningRef (refs w) ->
  schedulerIdRef (refs w') = schedulerIdRef (refs w) ->
  transportCoherent w -> transportCoherent w'.
Proof.
  intros H1 H2 H3 [A B]. split; rewrite ?H1, ?H2, ?H3; assumption.
Qed.

Lemma startTransport_coherent cl now (w : World C) :
  transportCoherent w -> transportCoherent (startTransport cl now w).
Proof.
  intros Hw. unfold startTransport.
  destruct (isTransportRunning cl); [exact Hw|].
  destruct (the_cursor w); [|exact Hw].
  destruct (dynamicTempoEnabled cl); split; simpl_world;
    try reflexivity; split; try reflexivity; discriminate.
Qed.

Lemma updateDynamicTempo_transport cl a now (w : World C) :
  isTransportRunning (hooks (updateDynamicTempo cl a now w))
  = isTransportRunning (hooks w)
  /\ isTransportRunningRef (refs (updateDynamicTempo cl a now w))
     = isTransportRunningRef (refs w).
Proof.
  unfold updateDynamicTempo.
  destruct (dynamicTempoEnabled cl), a; cbn [negb]; split_ifs;
    split; reflexivity.
Qed.

Lemma markBeat_transport cl now (w : World C) :
  isTransportRunning (hooks (markBeat cl now w))
  = isTransportRunning (hooks w)
  /\ isTransportRunningRef (refs (markBeat cl now w))
     = isTransportRunningRef (refs w).
Proof.
  unfold markBeat. destruct (cursorElement w); [|split; reflexivity].
  cbv zeta.
  match goal with
  | |- context [updateDynamicTempo cl ?a now ?w0] =>
      destruct (updateDynamicTempo_transport cl a now w0) as (-> & ->)
  end.
  split; reflexivity.
Qed.

Lemma step_coherent cl now (w : World C) :
  isTransportRunningRef (refs w) = true ->
  transportCoherent w -> transportCoherent (step cl now w).
Proof.
  intros Hr Hw. unfold step.
  destruct (the_cursor w) as [c|]; [|exact Hw].
  destruct (endReached c); [apply stopTransport_coherent|].
  destruct (markBeat_transport cl now w) as (Mh & Mr).
  destruct Hw as [A B].
  set (w1 := markBeat cl now w) in *. clearbody w1.
  cbv zeta.
  destruct (0 <? _)%nat.
  - destruct (_ <? _)%nat; [|apply stopTransport_coherent].
    destruct (nth_error _ _); split; simpl_world;
      rewrite ?Mh, ?Mr; try assumption;
      (split; [intros _; exact Hr|discriminate]).
  - split; simpl_world; rewrite ?Mh, ?Mr; try assumption.
    split; [intros _; exact Hr|discriminate].
Qed.

Lemma tick_transport cl s (w : World C) :
  transportCoherent w -> transportCoherent (tick cl s w).
Proof.
  intros Hw. unfold tick.
  set (w1 := if isTransportRunningRef (refs w) then _ else w).
  assert (K1 : transportCoherent w1).
  { unfold w1. apply (coherent_of_refs w); [| | |exact Hw];
      split_ifs; simpl_world; congruence. }
  clearbody w1.
  set (w2 := match effectiveMidi cl w with Some _ => _ | None => w1 end).
  assert (K2 : transportCoherent w2).
  { unfold w2. apply (coherent_of_refs w1); [| | |exact K1];
      destruct (effectiveMidi cl w); try reflexivity;
      split_ifs; simpl_world; congruence. }
  clearbody w2. clear K1 w1.
  destruct (isAccurate cl s w).
  - set (w3 := if Qeq_bool (stableForMsRef (refs w2)) 0 then _ else w2).
    assert (K3 : transportCoherent w3).
    { unfold w3. apply (coherent_of_refs w2); [| | |exact K2];
        destruct (Qeq_bool _ _); reflexivity. }
    clearbody w3. clear K2 w2.
    destruct (JS.Qlt_bool _ _); [|exact K3].
    apply startTransport_coherent.
    apply (coherent_of_refs w3); [| | |exact K3];
      destruct (the_cursor _); reflexivity.
  - apply (coherent_of_refs w2); [reflexivity..|exact K2].
Qed.

Lemma applyEvent_coherent (w : World C) (e : Event) :
  transportCoherent w -> transportCoherent (applyEvent w e).
Proof.
  intros Hw. destruct e as [cl s|cl now| |cl|]; cbn [applyEvent].
  - apply tick_transport, Hw.
  - unfold fire. destruct (schedulerIdRef (refs w)) eqn:E; [|exact Hw].
    apply step_coherent; [|exact Hw].
    apply (tc_timer _ Hw). congruence.
  - apply stopTransport_coherent.
  - apply (coherent_of_refs w); [| | |exact Hw];
      unfold jumpToMeasure;
      (destruct (osmdRef w) as [osmd|]; [|reflexivity]);
      (destruct (cursor osmd) as [c|]; [|reflexivity]);
      cbv zeta;
      destruct (match selectPrimaryNoteFromArray _ with
                | Some _ => _
                | None => _
                end); reflexivity.
  - apply (coherent_of_refs w); [| | |exact Hw];
      unfold resetStartPoint; cbv zeta;
      (destruct (the_cursor _); [|reflexivity]);
      destruct (scoreMidiSequenceRef _); reflexivity.
Qed.

(** X13. Whatever happens to the component, the running state and the
    running ref agree, and a beat timer is held exactly while the transport
    runs. *)
Theorem run_transportCoherent (events : list Event) (w : World C) :
  transportCoherent w -> transportCoherent (run events w).
Proof. apply run_invariant. apply applyEvent_coherent. Qed.


(** ** A whole run *)

Lemma the_cursor_set_cursor (c : C) (w : World C) :
  the_cursor w <> None -> the_cursor (set_cursor c w) = Some c.
Proof.
  unfold the_cursor, set_cursor. cbn [osmdRef].
  destruct (osmdRef w); [reflexivity|congruence].
Qed.

Lemma step_advance cl now (w : World C) (c : C) :
  the_cursor w = Some c ->
  endReached c = false ->
  (S (currentStepIndexRef (refs w))
   < List.length (scoreMidiSequenceRef (refs w)))%nat ->
  let w' := step cl now w in
  the_cursor w' = Some (fst (ensureCursorOnNote (next c)))
  /\ cursorElement w' = cursorElement w
  /\ schedulerIdRef (refs w') = Some (armStep cl now)
  /\ currentStepIndexRef (refs w') = S (currentStepIndexRef (refs w))
  /\ scoreMidiSequenceRef (refs w') = scoreMidiSequenceRef (refs w)
  /\ noteMarksRef (refs w') = noteMarksRef (refs (markBeat cl now w)).
Proof.
  intros Hc Hend Hlt. cbv zeta. unfold step. rewrite Hc, Hend.
  pose proof (markBeat_frame cl now w) as F.
  pose proof (bf_index _ _ F) as Fi. pose proof (bf_osmd _ _ F) as Fo.
  pose proof (bf_dom _ _ F) as Fd. pose proof (bf_seq _ _ F) as Fs.
  clear F. set (w1 := markBeat cl now w) in *. clearbody w1.
  cbv zeta. simpl_world. rewrite Fi.
  assert (H0 : (0 <? List.length (scoreMidiSequenceRef (refs w)))%nat = true)
    by (apply Nat.ltb_lt; lia).
  assert (H1 : (currentStepIndexRef (refs w) + 1
                <? List.length (scoreMidiSequenceRef (refs w)))%nat = true)
    by (apply Nat.ltb_lt; lia).
  rewrite H0, H1.
  assert (Hc1 : forall v : World C, osmdRef v = osmdRef w ->
                the_cursor (set_cursor (fst (ensureCursorOnNote (next c))) v)
                = Some (fst (ensureCursorOnNote (next c)))).
  { intros v Hv. apply the_cursor_set_cursor. unfold the_cursor.
    rewrite Hv. fold (the_cursor w). congruence. }
  destruct (nth_error _ _).
  - repeat split; simpl_world; try assumption; try lia.
    unfold the_cursor at 1. simpl_world. fold (the_cursor
      (set_cursor (fst (ensureCursorOnNote (next c)))
         (on_hooks (set_targetInfo (Some (midi m)))
            (on_refs (set_lastTargetMidiRef (Some (midi m)))
               (on_refs
                  (set_currentStepIndexRef
                     (currentStepIndexRef (refs w) + 1))
                  (on_refs (set_windowHadAnyPitchRef false)
                     (on_refs (set_windowHadAccurateRef false) w1))))))).
    apply Hc1. exact Fo.
  - repeat split; simpl_world; try assumption; try lia.
    unfold the_cursor at 1. simpl_world. fold (the_cursor
      (set_cursor (fst (ensureCursorOnNote (next c)))
         (on_refs
            (set_currentStepIndexRef (currentStepIndexRef (refs w) + 1))
            (on_refs (set_windowHadAnyPitchRef false)
               (on_refs (set_windowHadAccurateRef false) w1))))).
    apply Hc1. exact Fo.
Qed.

Lemma step_last cl now (w : World C) (c : C) :
  the_cursor w = Some c ->
  endReached c = false ->
  S (currentStepIndexRef (refs w))
  = List.length (scoreMidiSequenceRef (refs w)) ->
  let w' := step cl now w in
  schedulerIdRef (refs w') = None
  /\ isTransportRunningRef (refs w') = false
  /\ isTransportRunning (hooks w') = false
  /\ currentStepIndexRef (refs w') = currentStepIndexRef (refs w)
  /\ noteMarksRef (refs w') = noteMarksRef (refs (markBeat cl now w)).
Proof.
  intros Hc Hend Hlt. cbv zeta. unfold step. rewrite Hc, Hend.
  pose proof (markBeat_frame cl now w) as F.
  pose proof (bf_index _ _ F) as Fi. clear F.
  set (w1 := markBeat cl now w) in *. clearbody w1.
  cbv zeta. simpl_world. rewrite Fi.
  assert (H0 : (0 <? List.length (scoreMidiSequenceRef (refs w)))%nat = true)
    by (apply Nat.ltb_lt; lia).
  assert (H1 : (currentStepIndexRef (refs w) + 1
                <? List.length (scoreMidiSequenceRef (refs w)))%nat = false)
    by (apply Nat.ltb_ge; lia).
  rewrite H0, H1. unfold stopTransport. simpl_world.
  repeat split; assumption.
Qed.

(** X14. With the cursor's element on the page and a notation cursor that
    does not run out, the beats from index [i] of a sequence of [L] elements
    grade every remaining element once: after [L - i] firings of the timer
    there are [L - i] more marks, the index rests on the last element and
    the transport has stopped itself. *)
Theorem transport_grades_every_element (fires : list (Hooks * Q))
    (w : World C) (c : C) :
  the_cursor w = Some c ->
  cursorElement w = true ->
  schedulerIdRef (refs w) <> None ->
  (currentStepIndexRef (refs w)
   < List.length (scoreMidiSequenceRef (refs w)))%nat ->
  (currentStepIndexRef (refs w) + List.length fires
   = List.length (scoreMidiSequenceRef (refs w)))%nat ->
  (forall k, (k < List.length fires)%nat ->
             endReached (cursorAfterBeats k c) = false) ->
  let w' := run (timerEvents fires) w in
  (exists added : list Kind,
      noteMarksRef (refs w') = noteMarksRef (refs w) ++ added
      /\ List.length added = List.length fires)
  /\ S (currentStepIndexRef (refs w'))
     = List.length (scoreMidiSequenceRef (refs w))
  /\ isTransportRunningRef (refs w') = false
  /\ isTransportRunning (hooks w') = false
  /\ schedulerIdRef (refs w') = None.
Proof.
  revert w c.
  induction fires as [|[cl now] fires IH]; intros w c Hc Hdom Ht Hi Hlen Hend.
  - cbn [List.length] in Hlen. lia.
  - cbv zeta. cbn [timerEvents map run fold_left applyEvent fst snd].
    fold (timerEvents fires). fold (run (timerEvents fires) (fire cl now w)).
    unfold fire. destruct (schedulerIdRef (refs w)) eqn:Et; [|congruence].
    clear Ht Et.
    cbn [List.length] in Hlen.
    assert (He0 : endReached c = false)
      by (apply (Hend 0%nat); cbn [List.length]; lia).
    pose proof (markBeat_marks cl now w) as Hm. rewrite Hdom in Hm.
    destruct fires as [|f fires].
    + cbn [timerEvents map run fold_left].
      destruct (step_last cl now w c Hc He0) as (A & B & D & E & F);
        [cbn [List.length] in Hlen; lia|].
      split.
      * exists [kindOf (windowHadAccurateRef (refs w))
                  (windowHadAnyPitchRef (refs w))].
        split; [congruence|reflexivity].
      * rewrite E. cbn [List.length] in Hlen.
        repeat split; try assumption. lia.
    + destruct (step_advance cl now w c Hc He0) as (A & B & D & E & F & G);
        [cbn [List.length] in Hlen; lia|].
      destruct (IH (step cl now w) (fst (ensureCursorOnNote (next c))))
        as ((added & M1 & M2) & I1 & R1 & R2 & T1).
      * exact A.
      * congruence.
      * congruence.
      * rewrite E, F. cbn [List.length] in Hlen. lia.
      * rewrite E, F. cbn [List.length] in Hlen |- *. lia.
      * intros k Hk. apply (Hend (S k)). cbn [List.length] in Hk |- *. lia.
      * split.
        -- exists (kindOf (windowHadAccurateRef (refs w))
                     (windowHadAnyPitchRef (refs w)) :: added).
           split.
           ++ rewrite M1, G, Hm, <- app_assoc. reflexivity.
           ++ cbn [List.length] in M2 |- *. lia.
        -- rewrite <- F. repeat split; assumption.
Qed.

End RunProperties.

(** The loaded component hearing A4, a beat, a jump and a stop. *)
Lemma run_windowConsistent_witness :
  windowConsistent loaded /\ windowConsistent (run someEvents loaded).
Proof.
  assert (H : windowConsistent loaded) by (intros H; discriminate H).
  split; [exact H|]. apply (run_windowConsistent someEvents loaded H).
Defined.

Lemma run_index_in_sequence_witness :
  (currentStepIndexRef (refs loaded)
   < List.length (scoreMidiSequenceRef (refs loaded)))%nat
  /\ scoreMidiSequenceRef (refs (run someEvents loaded))
     = scoreMidiSequenceRef (refs loaded)
  /\ (currentStepIndexRef (refs loaded)
      <= currentStepIndexRef (refs (run someEvents loaded))
      <= currentStepIndexRef (refs loaded) + countFired someEvents)%nat
  /\ midiSeqTarget (run someEvents loaded) <> None.
Proof.
  assert (H : (currentStepIndexRef (refs loaded)
               < List.length (scoreMidiSequenceRef (refs loaded)))%nat)
    by (cbn; lia).
  split; [exact H|]. apply (run_index_in_sequence someEvents loaded H).
Defined.

Lemma run_transportCoherent_witness :
  transportCoherent loaded /\ transportCoherent (run someEvents loaded).
Proof.
  assert (H : transportCoherent loaded).
  { split; [reflexivity|].
    split; [intros H; exfalso; apply H; reflexivity|discriminate]. }
  split; [exact H|]. apply (run_transportCoherent someEvents loaded H).
Defined.

(** The three notes, from the start: three beats grade them and stop. *)
Lemma transport_grades_every_element_witness :
  the_cursor threeNotesRunning = Some threeNotesCursor
  /\ cursorElement threeNotesRunning = true
  /\ schedulerIdRef (refs threeNotesRunning) <> None
  /\ (exists added : list Kind,
         noteMarksRef (refs (run (timerEvents threeBeats) threeNotesRunning))
         = noteMarksRef (refs threeNotesRunning) ++ added
         /\ List.length added = List.length threeBeats)
  /\ S (currentStepIndexRef
          (refs (run (timerEvents threeBeats) threeNotesRunning)))
     = List.length (scoreMidiSequenceRef (refs threeNotesRunning))
  /\ isTransportRunningRef
       (refs (run (timerEvents threeBeats) threeNotesRunning)) = false
  /\ isTransportRunning
       (hooks (run (timerEvents threeBeats) threeNotesRunning)) = false
  /\ schedulerIdRef (refs (run (timerEvents threeBeats) threeNotesRunning))
     = None.
Proof.
  assert (H1 : the_cursor threeNotesRunning = Some threeNotesCursor)
    by reflexivity.
  assert (H2 : cursorElement threeNotesRunning = true) by reflexivity.
  assert (H3 : schedulerIdRef (refs threeNotesRunning) <> None)
    by (cbn; discriminate).
  split; [exact H1|]. split; [exact H2|]. split; [exact H3|].
  apply (transport_grades_every_element threeBeats threeNotesRunning
           threeNotesCursor H1 H2 H3).
  - cbn. lia.
  - reflexivity.
  - intros [|[|[|k]]] Hk; [reflexivity|reflexivity|reflexivity|].
    cbn in Hk. lia.
Defined.

(** ** Note selection *)

Lemma candidates_spec (notes : list GraphicalNote) (m : Z) :
  In m (candidates notes)
  <-> In (Some m) notes /\ VIOLIN_MIN_MIDI <= m <= VIOLIN_MAX_MIDI.
Proof.
  unfold candidates, midiFromGraphicalNote. rewrite in_flat_map. split.
  - intros ([x|] & Hin & Hm); [|contradiction].
    destruct ((x >=? VIOLIN_MIN_MIDI) && (x <=? VIOLIN_MAX_MIDI)) eqn:E;
      [|contradiction].
    destruct Hm as [<-|[]]. split; [exact Hin|].
    apply andb_true_iff in E. destruct E as (E1 & E2).
    apply Z.geb_le in E1. apply Z.leb_le in E2. lia.
  - intros (Hin & Hr). exists (Some m). split; [exact Hin|].
    replace ((m >=? VIOLIN_MIN_MIDI) && (m <=? VIOLIN_MAX_MIDI)) with true.
    + left. reflexivity.
    + symmetry. apply andb_true_iff. split;
        [apply Z.geb_le|apply Z.leb_le]; lia.
Qed.

(** The head of a list sorted by a comparator that compares keys. *)
Section SortHead.

Variable key : Z -> Z.
Variable cmp : Z -> Z -> Z.
Hypothesis cmp_key : forall a b, cmp a b <= 0 <-> key a <= key b.

Lemma insert_by_In (x z : Z) (l : list Z) :
  In z (insert_by cmp x l) -> z = x \/ In z l.
Proof.
  induction l as [|y l IH]; cbn [insert_by]; intros H.
  - destruct H as [<-|[]]. auto.
  - destruct (cmp x y <=? 0).
    + destruct H as [<-|H]; auto.
    + destruct H as [<-|H]; [right; left; reflexivity|].
      destruct (IH H) as [->|?]; [auto|right; right; assumption].
Qed.

Lemma sort_by_In (l : list Z) (z : Z) : In z (sort_by cmp l) -> In z l.
Proof.
  revert z. induction l as [|x l IH]; intros z Hz; [exact Hz|].
  unfold sort_by in Hz. cbn [fold_right] in Hz. fold (sort_by cmp l) in Hz.
  destruct (insert_by_In _ _ _ Hz) as [->|H]; [left; reflexivity|right; auto].
Qed.

Lemma insert_by_head (x : Z) (l : list Z) :
  exists h rest,
    insert_by cmp x l = h :: rest
    /\ (h = x \/ In h l)
    /\ key h <= key x
    /\ (forall y r, l = y :: r -> key h <= key y).
Proof.
  destruct l as [|y r]; cbn [insert_by].
  - exists x, []. repeat split; auto; try lia. intros; discriminate.
  - destruct (cmp x y <=? 0) eqn:E.
    + apply Z.leb_le, cmp_key in E. exists x, (y :: r).
      repeat split; auto; try lia. intros ? ? [= <- <-]. exact E.
    + apply Z.leb_gt in E.
      assert (key y < key x).
      { destruct (Z.le_gt_cases (key x) (key y)) as [H|H]; [|exact H].
        apply cmp_key in H. lia. }
      exists y, (insert_by cmp x r). repeat split; try lia.
      * right. left. reflexivity.
      * intros ? ? [= <- <-]. lia.
Qed.

Lemma sort_by_head (l : list Z) :
  l <> [] ->
  exists h rest,
    sort_by cmp l = h :: rest
    /\ In h l
    /\ forall y, In y l -> key h <= key y.
Proof.
  induction l as [|x l IH]; [congruence|]. intros _.
  unfold sort_by. cbn [fold_right]. fold (sort_by cmp l).
  destruct (insert_by_head x (sort_by cmp l)) as (h & rest & E & Hh & Hx & Hy).
  exists h, rest. split; [exact E|].
  destruct l as [|x' l'].
  - cbn [sort_by fold_right] in *. destruct Hh as [->|[]].
    split; [left; reflexivity|]. intros y [<-|[]]. lia.
  - destruct IH as (h' & rest' & E' & Hin' & Hmin'); [congruence|].
    specialize (Hy h' rest' E').
    split.
    + destruct Hh as [->|Hh]; [left; reflexivity|].
      right. apply sort_by_In. exact Hh.
    + intros y [<-|Hyin]; [exact Hx|].
      specialize (Hmin' y Hyin). lia.
Qed.

End SortHead.

(** X15. [selectPrimaryNoteFromArray] gives nothing only when no note under
    the cursor has a pitch in the violin range 55..100; otherwise it gives
    a note of that range that is under the cursor, and none of the others
    in range is higher. *)
Theorem selectPrimaryNoteFromArray_highest (notes : list GraphicalNote) :
  match selectPrimaryNoteFromArray notes with
  | None =>
      forall m, In (Some m) notes ->
                ~ (VIOLIN_MIN_MIDI <= m <= VIOLIN_MAX_MIDI)
  | Some chosen =>
      exists m,
        chosen = Some m
        /\ In (Some m) notes
        /\ VIOLIN_MIN_MIDI <= m <= VIOLIN_MAX_MIDI
        /\ forall m', In (Some m') notes ->
                      VIOLIN_MIN_MIDI <= m' <= VIOLIN_MAX_MIDI -> m' <= m
  end.
Proof.
  unfold selectPrimaryNoteFromArray.
  destruct (candidates notes) as [|c cs] eqn:E.
  - cbn. intros m Hin Hr.
    assert (H : In m (candidates notes)) by (apply candidates_spec; auto).
    rewrite E in H. exact H.
  - destruct (sort_by_head (fun z => - z) (fun a b => b - a)) with (l := c :: cs)
      as (h & rest & Es & Hin & Hmin); [intros; lia|congruence|].
    rewrite Es. exists h. rewrite <- E in Hin, Hmin.
    apply candidates_spec in Hin. destruct Hin as (Hin & Hr).
    repeat split; try assumption; try lia.
    intros m' Hin' Hr'.
    assert (H : In m' (candidates notes)) by (apply candidates_spec; auto).
    specialize (Hmin m' H). lia.
Qed.

(** X16. [selectPreferredNote] with a preferred pitch gives a note in the
    violin range under the cursor that is at least as close to the
    preferred pitch as every other one; so the preferred pitch itself when
    it is there. *)
Theorem selectPreferredNote_nearest (notes : list GraphicalNote) (p : Z) :
  match selectPreferredNote notes (Some p) with
  | None =>
      forall m, In (Some m) notes ->
                ~ (VIOLIN_MIN_MIDI <= m <= VIOLIN_MAX_MIDI)
  | Some chosen =>
      exists m,
        chosen = Some m
        /\ In (Some m) notes
        /\ VIOLIN_MIN_MIDI <= m <= VIOLIN_MAX_MIDI
        /\ (forall m', In (Some m') notes ->
                       VIOLIN_MIN_MIDI <= m' <= VIOLIN_MAX_MIDI ->
                       Z.abs (m - p) <= Z.abs (m' - p))
        /\ (In (Some p) notes ->
            VIOLIN_MIN_MIDI <= p <= VIOLIN_MAX_MIDI -> m = p)
  end.
Proof.
  unfold selectPreferredNote.
  destruct (candidates notes) as [|c cs] eqn:E.
  - intros m Hin Hr.
    assert (H : In m (candidates notes)) by (apply candidates_spec; auto).
    rewrite E in H. exact H.
  - destruct (sort_by_head (fun z => Z.abs (z - p))
                (fun a b => Z.abs (a - p) - Z.abs (b - p)))
      with (l := c :: cs)
      as (h & rest & Es & Hin & Hmin); [intros; lia|congruence|].
    rewrite Es. exists h. rewrite <- E in Hin, Hmin.
    apply candidates_spec in Hin. destruct Hin as (Hin & Hr).
    assert (Hnear : forall m', In (Some m') notes ->
                       VIOLIN_MIN_MIDI <= m' <= VIOLIN_MAX_MIDI ->
                       Z.abs (h - p) <= Z.abs (m' - p)).
    { intros m' Hin' Hr'. apply Hmin. apply candidates_spec; auto. }
    repeat split; try assumption; try lia.
    intros Hp Hpr. specialize (Hnear p Hp Hpr). lia.
Qed.

(** Without a preferred pitch the two selections agree. *)
Lemma selectPreferredNote_default (notes : list GraphicalNote) :
  selectPreferredNote notes None = selectPrimaryNoteFromArray notes.
Proof.
  unfold selectPreferredNote, selectPrimaryNoteFromArray.
  destruct (candidates notes); reflexivity.
Qed.

(** ** Moving the cursor onto a note *)

Section Ensure.

Context {C : Type} {NC : NotationCursor C}.

Lemma ensureCursorOnNote_from_spec (guard : nat) (c : C) :
  exists k : nat,
    (k <= guard)%nat
    /\ fst (ensureCursorOnNote_from guard c) = nextTimes k c
    /\ (forall j, (j < k)%nat ->
                  has_notes (nextTimes j c) = false
                  /\ endReached (nextTimes j c) = false)
    /\ (snd (ensureCursorOnNote_from guard c) = true
        <-> (k < guard)%nat /\ has_notes (nextTimes k c) = true)
    /\ (snd (ensureCursorOnNote_from guard c) = false -> (k < guard)%nat ->
        endReached (nextTimes k c) = true).
Proof.
  revert c. induction guard as [|guard IH]; intros c.
  - exists 0%nat. cbn [ensureCursorOnNote_from fst snd nextTimes].
    split; [lia|]. split; [reflexivity|]. split; [intros; lia|].
    split; [split; [discriminate|intros (? & _); lia]|intros; lia].
  - cbn [ensureCursorOnNote_from].
    destruct (has_notes c) eqn:Hn.
    + exists 0%nat. cbn [fst snd nextTimes].
      split; [lia|]. split; [reflexivity|]. split; [intros; lia|].
      split; [split; [intros _; split; [lia|exact Hn]|reflexivity]
             |discriminate].
    + destruct (endReached c) eqn:He.
      * exists 0%nat. cbn [fst snd nextTimes].
        split; [lia|]. split; [reflexivity|]. split; [intros; lia|].
        split; [split; [discriminate|intros (_ & ?); congruence]
               |intros; exact He].
      * destruct (IH (next c)) as (k & Hk & Hf & Hskip & Ht & Hfalse).
        exists (S k). cbn [nextTimes].
        split; [lia|]. split; [exact Hf|]. split.
        -- intros [|j] Hj; cbn [nextTimes]; [split; assumption|].
           apply Hskip. lia.
        -- split.
           ++ rewrite Ht. split; intros (? & ?); split; auto; lia.
           ++ intros Hs Hlt. apply Hfalse; [exact Hs|lia].
Qed.

(** X17. [ensureCursorOnNote] moves the cursor forward at most 16 positions
    and only past positions that carry no note and are not the end; it
    returns true exactly when it stopped, after fewer than 16 moves, on a
    position that carries a note, and when it returns false after fewer
    than 16 moves the cursor is at its end. *)
Theorem ensureCursorOnNote_spec (c : C) :
  exists k : nat,
    (k <= 16)%nat
    /\ fst (ensureCursorOnNote c) = nextTimes k c
    /\ (forall j, (j < k)%nat ->
                  has_notes (nextTimes j c) = false
                  /\ endReached (nextTimes j c) = false)
    /\ (snd (ensureCursorOnNote c) = true
        <-> (k < 16)%nat /\ has_notes (nextTimes k c) = true)
    /\ (snd (ensureCursorOnNote c) = false -> (k < 16)%nat ->
        endReached (nextTimes k c) = true).
Proof. apply ensureCursorOnNote_from_spec. Qed.

End Ensure.

(** ** Note names *)

Lemma stepToSemitone_cases (step : string) (b : Z) :
  stepToSemitone step = Some b ->
  (step = "C"%string /\ b = 0) \/ (step = "D"%string /\ b = 2)
  \/ (step = "E"%string /\ b = 4) \/ (step = "F"%string /\ b = 5)
  \/ (step = "G"%string /\ b = 7) \/ (step = "A"%string /\ b = 9)
  \/ (step = "B"%string /\ b = 11).
Proof.
  unfold stepToSemitone.
  repeat match goal with
         | |- context [String.eqb ?a ?c] =>
             destruct (String.eqb_spec a c) as [->|_]
         end; intros [= <-]; tauto.
Qed.

Lemma pitch_class_octave (o b : Z) :
  0 <= b < 12 -> -100 <= o ->
  Z.rem ((o + 1) * 12 + b + 1200) 12 = b
  /\ ((o + 1) * 12 + b) / 12 - 1 = o.
Proof.
  intros Hb Ho. split.
  - rewrite Z.rem_mod_nonneg by lia.
    replace ((o + 1) * 12 + b + 1200) with (b + (o + 101) * 12) by lia.
    rewrite Z.mod_add by lia. apply Z.mod_small. lia.
  - replace ((o + 1) * 12 + b) with (b + (o + 1) * 12) by lia.
    rewrite Z.div_add by lia. rewrite Z.div_small by lia. lia.
Qed.

(** X18. The name shown for a natural note read from the document is the
    document's step followed by its octave. *)
Theorem midiToName_of_natural_pitch (step : string) (o b : Z) :
  stepToSemitone step = Some b ->
  -100 <= o ->
  midiToName
    (midiOfPitch
       {| stepEl := Some step; alterEl := None; octaveEl := Some o |})
  = (step ++ decimal o)%string.
Proof.
  intros Hs Ho.
  assert (Hne : String.eqb step "" = false).
  { destruct (String.eqb_spec step ""%string) as [->|]; [|reflexivity].
    discriminate. }
  unfold midiOfPitch, stepOf, alterOf, octaveOf.
  cbn [stepEl alterEl octaveEl]. rewrite Hne, Hs. cbv zeta.
  rewrite Z.add_0_r. unfold midiToName. cbv zeta.
  assert (Hb : 0 <= b < 12)
    by (destruct (stepToSemitone_cases _ _ Hs)
          as [(_ & ->)|[(_ & ->)|[(_ & ->)|[(_ & ->)|[(_ & ->)|[(_ & ->)
             |(_ & ->)]]]]]]; lia).
  destruct (pitch_class_octave o b Hb Ho) as (-> & ->).
  replace (b <? 0) with false by (symmetry; apply Z.ltb_ge; lia).
  f_equal.
  destruct (stepToSemitone_cases _ _ Hs)
    as [(-> & ->)|[(-> & ->)|[(-> & ->)|[(-> & ->)|[(-> & ->)|[(-> & ->)
       |(-> & ->)]]]]]]; reflexivity.
Qed.

(** A4, as the document writes it. *)
Lemma midiToName_of_natural_pitch_witness :
  stepToSemitone "A" = Some 9
  /\ midiToName (midiOfPitch (pitchOf "A" None 4)) = "A4"%string.
Proof.
  assert (H : stepToSemitone "A" = Some 9) by reflexivity.
  split; [exact H|].
  apply (midiToName_of_natural_pitch "A" 4 9 H). lia.
Defined.

(** ** The sequence built from the document *)

(** The strings do not overlap in what is assigned: G takes 55..66, D what
    is left up to 73, A up to 80, E up to 87. *)
Lemma estimateString_partition (m : Z) :
  (estimateString m = Some "G"%string <-> 55 <= m <= 66)
  /\ (estimateString m = Some "D"%string <-> 67 <= m <= 73)
  /\ (estimateString m = Some "A"%string <-> 74 <= m <= 80)
  /\ (estimateString m = Some "E"%string <-> 81 <= m <= 87)
  /\ (estimateString m = None <-> m < 55 \/ 87 < m).
Proof.
  unfold estimateString.
  repeat match goal with
         | |- context [?a >=? ?b] =>
             destruct (Z.geb_spec a b)
         | |- context [?a <=? ?b] =>
             destruct (Z.leb_spec a b)
         end; cbn [andb];
    repeat split; intros; try discriminate; try lia; try reflexivity.
Qed.

Lemma firstPresent_In (types present : list string) (t : string) :
  firstPresent types present = Some t -> In t types /\ In t present.
Proof.
  induction types as [|ty types IH]; cbn [firstPresent]; [discriminate|].
  destruct (existsb (String.eqb ty) present) eqn:E.
  - intros [= <-]. split; [left; reflexivity|].
    apply existsb_exists in E. destruct E as (x & Hin & Hx).
    apply String.eqb_eq in Hx. subst x. exact Hin.
  - intros H. destruct (IH H). split; [right|]; assumption.
Qed.

Lemma buildElement_wellFormed dynamics (n : NoteEl) (e : MusicalElement) :
  buildElement dynamics n = Some e -> wellFormed e.
Proof.
  unfold buildElement. destruct (restEl n); [discriminate|].
  destruct (pitchEl n) as [p|]; [|discriminate]. cbv zeta.
  destruct ((midiOfPitch p >=? 21) && (midiOfPitch p <=? 108)) eqn:E;
    [|discriminate].
  intros H.
  apply (f_equal (fun o => match o with Some x => x | None => e end)) in H.
  cbv beta iota in H. subst e.
  apply andb_true_iff in E. destruct E as (E1 & E2).
  apply Z.geb_le in E1. apply Z.leb_le in E2.
  split; cbn [midi accidental position string_ dynamic articulation].
  - lia.
  - destruct (alterOf p =? 0) eqn:Ea; cbn [negb]; [discriminate|].
    apply Z.eqb_neq in Ea. congruence.
  - unfold estimatePosition. intros q.
    destruct (octaveOf p >=? 5); [|discriminate]. intros [= <-]. lia.
  - reflexivity.
  - intros d. destruct dynamics; [|discriminate].
    intros H. apply (firstPresent_In _ _ _ H).
  - intros a. destruct (articulationsEl n); [|discriminate].
    intros H. apply (firstPresent_In _ _ _ H).
Qed.

(** X19. Every element of a sequence built by [loadSample] has a pitch in
    21..108, no accidental of 0, a position of at least 1 when it has one,
    the string its pitch falls on, and a dynamic and an articulation from
    the component's lists. *)
Theorem buildSequence_wellFormed (doc : list MeasureEl) (e : MusicalElement) :
  In e (buildSequence doc) -> wellFormed e.
Proof.
  unfold buildSequence. rewrite in_flat_map. intros (m & _ & H).
  apply in_flat_map in H. destruct H as (n & _ & H).
  destruct (buildElement (dynamicsEl m) n) eqn:E; [|contradiction].
  destruct H as [<-|[]]. apply (buildElement_wellFormed _ _ _ E).
Qed.

(** The staccato C#6 of the small document. *)
Lemma buildSequence_wellFormed_witness :
  In (nth 1 (buildSequence smallDocument) (note 0))
    (buildSequence smallDocument)
  /\ wellFormed (nth 1 (buildSequence smallDocument) (note 0)).
Proof.
  assert (H : In (nth 1 (buildSequence smallDocument) (note 0))
                (buildSequence smallDocument))
    by (right; left; reflexivity).
  split; [exact H|].
  apply (buildSequence_wellFormed smallDocument _ H).
Defined.

(** ** Measure boundaries *)

Lemma last_cons {A : Type} (l : list A) (x d : A) :
  last (x :: l) d = last l x.
Proof.
  revert x d. induction l as [|y l IH]; intros x d; [reflexivity|].
  change (last (x :: y :: l) d) with (last (y :: l) d).
  rewrite (IH y d), (IH y x). reflexivity.
Qed.

Lemma boundariesFrom_spec (doc : list MeasureEl) (start : nat) :
  List.length (boundariesFrom start doc)
  = List.length (measuresWithNotes doc)
  /\ last (boundariesFrom start doc) start = (start + totalNotes doc)%nat
  /\ Forall (fun b => (start < b)%nat) (boundariesFrom start doc)
  /\ StronglySorted lt (boundariesFrom start doc).
Proof.
  revert start. induction doc as [|m doc IH]; intros start.
  - cbn. repeat split; try lia; constructor.
  - cbn [boundariesFrom measuresWithNotes filter totalNotes fold_right].
    fold (measuresWithNotes doc). fold (totalNotes doc).
    destruct (0 <? noteCount m)%nat eqn:E.
    + apply Nat.ltb_lt in E.
      destruct (IH (start + noteCount m)%nat) as (L & La & F & S).
      split; [cbn [List.length]; lia|]. split; [|split].
      * rewrite last_cons, La. lia.
      * constructor; [lia|].
        eapply Forall_impl; [|exact F]. cbn. intros; lia.
      * constructor; assumption.
    + apply Nat.ltb_ge in E.
      destruct (IH start) as (L & La & F & S).
      repeat split; try assumption. rewrite La. lia.
Qed.

(** X20. The measure boundaries start at 0, increase strictly, have one entry
    more than there are measures with a note that is not a rest, and end
    at the number of such notes in the document. *)
Theorem parseMeasureBoundaries_spec (doc : list MeasureEl) :
  hd_error (parseMeasureBoundaries doc) = Some 0%nat
  /\ StronglySorted lt (parseMeasureBoundaries doc)
  /\ List.length (parseMeasureBoundaries doc)
     = S (List.length (measuresWithNotes doc))
  /\ last (parseMeasureBoundaries doc) 0%nat = totalNotes doc.
Proof.
  unfold parseMeasureBoundaries.
  destruct (boundariesFrom_spec doc 0) as (L & La & F & S).
  split; [reflexivity|]. split; [constructor; assumption|].
  split; [cbn [List.length]; lia|].
  rewrite last_cons. exact La.
Qed.

Lemma measureElements_count (dynamics : option (list string))
    (notes : list NoteEl) :
  (List.length
     (flat_map (fun n => optionToList (buildElement dynamics n)) notes)
   <= List.length (filter (fun n => negb (restEl n)) notes))%nat
  /\ (List.length
        (flat_map (fun n => optionToList (buildElement dynamics n)) notes)
      = List.length (filter (fun n => negb (restEl n)) notes)
      <-> forall n, In n notes -> restEl n = false ->
                    buildElement dynamics n <> None).
Proof.
  induction notes as [|n notes (IHle & IHeq)].
  - cbn. split; [lia|]. split; [contradiction|reflexivity].
  - cbn [flat_map filter]. rewrite length_app.
    destruct (restEl n) eqn:R; cbn [negb].
    + assert (B : buildElement dynamics n = None)
        by (unfold buildElement; rewrite R; reflexivity).
      rewrite B. cbn [optionToList List.length]. split; [lia|].
      rewrite Nat.add_0_l, IHeq. split.
      * intros H x [<-|Hx]; [congruence|apply H; exact Hx].
      * intros H x Hx. apply H. right. exact Hx.
    + cbn [List.length].
      destruct (buildElement dynamics n) eqn:B; cbn [optionToList List.length].
      * split; [lia|]. split.
        -- intros H x [<-|Hx] Hr; [congruence|].
           apply IHeq; [lia|exact Hx|exact Hr].
        -- intros H. cbn [Nat.add]. f_equal. apply IHeq.
           intros x Hx. apply H. right. exact Hx.
      * split; [lia|]. split; [lia|].
        intros H. exfalso. apply (H n); [left; reflexivity|exact R|exact B].
Qed.

(** X21. The sequence is never longer than the last measure boundary, and as
    long exactly when every note that is not a rest gives an element (it
    has a pitch, and the pitch is in 21..108). *)
Theorem buildSequence_within_boundaries (doc : list MeasureEl) :
  (List.length (buildSequence doc)
   <= last (parseMeasureBoundaries doc) 0)%nat
  /\ (List.length (buildSequence doc) = last (parseMeasureBoundaries doc) 0%nat
      <-> forall m n, In m doc -> In n (noteEls m) -> restEl n = false ->
                      buildElement (dynamicsEl m) n <> None).
Proof.
  unfold parseMeasureBoundaries. rewrite last_cons.
  rewrite (proj1 (proj2 (boundariesFrom_spec doc 0))). cbn [Nat.add].
  unfold buildSequence.
  induction doc as [|m doc (IHle & IHeq)].
  - cbn. split; [lia|]. split; [contradiction|reflexivity].
  - cbn [flat_map totalNotes fold_right]. fold (totalNotes doc).
    rewrite length_app. unfold noteCount.
    destruct (measureElements_count (dynamicsEl m) (noteEls m)) as (Mle & Meq).
    split; [lia|]. split.
    + intros H m' n [<-|Hm] Hn Hr.
      * apply Meq; [lia|exact Hn|exact Hr].
      * apply IHeq; [lia|exact Hm|exact Hn|exact Hr].
    + intros H.
      assert (A : List.length
                    (flat_map
                       (fun n => optionToList (buildElement (dynamicsEl m) n))
                       (noteEls m))
                  = List.length
                      (filter (fun n => negb (restEl n)) (noteEls m))).
      { apply Meq. intros n Hn. apply H; [left; reflexivity|exact Hn]. }
      rewrite A. f_equal. apply IHeq.
      intros m' n Hm. apply H. right. exact Hm.
Qed.

(** ** The three loaders *)

Lemma map_flat_map_midi {A : Type} (f : A -> list MusicalElement)
    (l : list A) :
  map midi (flat_map f l) = flat_map (fun x => map midi (f x)) l.
Proof.
  induction l as [|x l IH]; [reflexivity|].
  cbn [flat_map]. rewrite map_app, IH. reflexivity.
Qed.

Lemma filter_flat_map {A B : Type} (p : B -> bool) (f : A -> list B)
    (l : list A) :
  filter p (flat_map f l) = flat_map (fun x => filter p (f x)) l.
Proof.
  induction l as [|x l IH]; [reflexivity|].
  cbn [flat_map]. rewrite filter_app, IH. reflexivity.
Qed.

Lemma flat_map_ext_in {A B : Type} (f g : A -> list B) (l : list A) :
  (forall x, f x = g x) -> flat_map f l = flat_map g l.
Proof.
  intros H. induction l as [|x l IH]; [reflexivity|].
  cbn [flat_map]. rewrite H, IH. reflexivity.
Qed.

Lemma buildElement_midi dynamics (n : NoteEl) :
  map midi (optionToList (buildElement dynamics n))
  = map midi (optionToList (buildPlain true n)).
Proof.
  unfold buildElement, buildPlain. destruct (restEl n); [reflexivity|].
  destruct (pitchEl n) as [p|]; [|reflexivity]. cbv zeta. cbn [negb orb].
  destruct ((midiOfPitch p >=? 21) && (midiOfPitch p <=? 108)); reflexivity.
Qed.

Lemma buildPlain_filter (n : NoteEl) :
  optionToList (buildPlain true n)
  = filter (fun e => inPianoRange (midi e)) (optionToList (buildPlain false n)).
Proof.
  unfold buildPlain, inPianoRange. destruct (restEl n); [reflexivity|].
  destruct (pitchEl n) as [p|]; [|reflexivity]. cbv zeta. cbn [negb orb].
  cbn [optionToList filter midi].
  destruct ((midiOfPitch p >=? 21) && (midiOfPitch p <=? 108)); reflexivity.
Qed.

(** X22. The three loaders agree on the pitches: the sequence of [loadSample]
    and the one of [loadFromGithub] have the same pitches in the same
    order, and they are the pitches of the file upload's sequence that lie
    in 21..108 (the upload keeps the others too). *)
Theorem loaders_agree_on_pitches (doc : list MeasureEl) :
  map midi (buildSequence doc) = map midi (buildPlainSequence true doc)
  /\ buildPlainSequence true doc
     = filter (fun e => inPianoRange (midi e)) (buildPlainSequence false doc).
Proof.
  unfold buildSequence, buildPlainSequence. split.
  - rewrite !map_flat_map_midi. apply flat_map_ext_in. intros m.
    rewrite !map_flat_map_midi. apply flat_map_ext_in. intros n.
    apply buildElement_midi.
  - rewrite filter_flat_map. apply flat_map_ext_in. intros m.
    rewrite filter_flat_map. apply flat_map_ext_in. intros n.
    apply buildPlain_filter.
Qed.

(** ** The look-ahead scheduler *)


Section Scheduler.
Local Open Scope Q_scope.





(** X24. The [Metronome] component takes the tempo as typed.  With a negative
    tempo the interval is negative, the next beat only moves further into
    the past, and the loop of the scheduler never exits. *)
Theorem scheduler_negative_tempo_never_returns (fuel : nat) (accent : bool)
    (r now t : Q) (bn : Z) (cs : list (Z * bool)) :
  r < 0 ->
  t < now + 0.1 ->
  scheduler fuel accent (JS.Finite r) now
    {| nextNoteTime := JS.Finite t; beatNumber := bn; clicks := cs |}
  = None.
Proof.
  intros Hr. unfold scheduler, metronomeSecondsPerBeat, JS.div, JS.ofZ.
  destruct (Qeq_bool r 0) eqn:E; [apply Qeq_bool_iff in E; lra|]. clear E.
  assert (Hq : inject_Z 60 / r < 0).
  { change (inject_Z 60) with 60. unfold Qdiv.
    assert (Hinv : r * / r == 1) by (apply Qmult_inv_r; lra).
    destruct (Qlt_le_dec (/ r) 0) as [Hi|Hi]; nra. }
  revert Hq. generalize (inject_Z 60 / r). intros q Hq.
  revert t bn cs. induction fuel as [|fuel IH]; intros t bn cs Ht;
    cbn [schedulerLoop nextNoteTime JS.lt];
    apply Qlt_bool_iff in Ht; rewrite Ht; [reflexivity|].
  cbn [JS.add beatNumber clicks]. apply IH. apply Qlt_bool_iff in Ht. lra.
Qed.


(** A tempo of -60 typed into the tempo box, at any bound on the rounds. *)
Lemma scheduler_negative_tempo_never_returns_witness :
  -60 < 0
  /\ 0 < 0 + 0.1
  /\ scheduler 1000 true (JS.Finite (-60)) 0
       {| nextNoteTime := JS.Finite 0; beatNumber := 0; clicks := [] |}
     = None.
Proof.
  assert (H1 : -60 < 0) by reflexivity.
  assert (H2 : 0 < 0 + 0.1) by reflexivity.
  split; [exact H1|]. split; [exact H2|].
  apply (scheduler_negative_tempo_never_returns 1000 true (-60) 0 0 0%Z []
           H1 H2).
Defined.


End Scheduler.
